(** * Record filter / sort / bulk-edit engine of the monster and item editors

    Shallow embedding of
    - [docs/development/tools/monster_manager.py]
      ([sanitize_filename], [get_monster_path],
       [MonsterManagerGUI.apply_filters_and_sort], [apply_bulk_changes],
       [save_monster], [bulk_edit_dialog], [BulkEditDialog.apply_changes]);
    - [tools/advanced_item_editor.py]
      ([gp_to_cp], [item_matches_search], [bulk_edit_dialog.apply_bulk_edit]).

    Python objects that the code mutates in place (lists and dicts) live in
    explicit stores indexed by locations, so that aliasing is visible.
    Exceptions are values of type [exn]; a computation that may raise has
    type [result A], and the state reached by a call that raises is not
    described.

    Scope.  Text is ASCII: the character classes and [lower] are those of
    Python on the characters below 128, and what Python does with other
    characters (its classes follow the Unicode tables) is not described;
    the properties that say which characters a result holds are stated
    for ASCII text.  Floats are binary64 values, held as the rationals they
    denote and rounded to nearest-even by every operation.  [list.sort] is
    described for keys that [<] orders; with a NaN among the keys the order
    it returns depends on the runs CPython finds, and only the content of
    the list is described in general.  The iteration order of a Python
    [set] is a parameter ([MonsterManager.set_iteration]).  A write to the file system is
    recorded as succeeding.  The widgets are represented by the texts and
    flags read from them, message boxes by the type [message]; redrawing
    the lists ([refresh_monster_list], [refresh_item_list] after an edit)
    is left out. *)

From Stdlib Require Import ZArith QArith Qround Lqa Ascii String List Permutation Sorted Bool Lia.
From stdpp Require Import base option list gmap strings fin_maps.

Local Open Scope string_scope.
Local Open Scope Z_scope.

(** ** Exceptions *)

Inductive exn : Set :=
| TypeError
| ValueError
| KeyError
| AttributeError
| OverflowError.

Definition result (A : Type) : Type := exn + A.

Definition ret {A} (a : A) : result A := inr a.
Definition raise {A} (e : exn) : result A := inl e.

#[global] Instance result_bind : MBind result := fun A B k m =>
  match m with
  | inl e => inl e
  | inr a => k a
  end.

(** [for x in l: ...] with a body that may raise, collecting results. *)
Fixpoint mapR {A B} (f : A -> result B) (l : list A) : result (list B) :=
  match l with
  | [] => ret []
  | x :: l' => y ← f x; ys ← mapR f l'; ret (y :: ys)
  end.

(** A list comprehension [[x for x in l if p(x)]] whose test may raise. *)
Fixpoint filterR {A} (p : A -> result bool) (l : list A) : result (list A) :=
  match l with
  | [] => ret []
  | x :: l' =>
      b ← p x; ys ← filterR p l'; ret (if b : bool then x :: ys else ys)
  end.

(** A loop [for x in l: acc = f(acc, x)] whose body may raise. *)
Fixpoint foldlR {A B} (f : B -> A -> result B) (acc : B) (l : list A) : result B :=
  match l with
  | [] => ret acc
  | x :: l' => acc' ← f acc x; foldlR f acc' l'
  end.

(** ** Text

    Python strings are modelled by [string]; the character classes below are
    those of [str.isspace], [str.lower] and the regular-expression classes
    [\w] and [\s] on ASCII characters, where they agree with Python.  A
    character above 127 belongs to no class here, whereas Python classifies
    it by the Unicode tables: on text with such characters the functions
    below need not agree with Python. *)

Module Text.

Definition code (c : ascii) : N := N_of_ascii c.

Definition is_space (c : ascii) : bool :=
  let n := code c in
  ((9 <=? n) && (n <=? 13) || (28 <=? n) && (n <=? 32))%N.

Definition is_upper (c : ascii) : bool :=
  let n := code c in ((65 <=? n) && (n <=? 90))%N.

Definition is_lower (c : ascii) : bool :=
  let n := code c in ((97 <=? n) && (n <=? 122))%N.

Definition is_digit (c : ascii) : bool :=
  let n := code c in ((48 <=? n) && (n <=? 57))%N.

(** [\w] *)
Definition is_word (c : ascii) : bool :=
  is_upper c || is_lower c || is_digit c || (code c =? 95)%N.

Definition lower_char (c : ascii) : ascii :=
  if is_upper c then ascii_of_N (code c + 32) else c.

(** [s.lower()] *)
Fixpoint lower (s : string) : string :=
  match s with
  | EmptyString => EmptyString
  | String c s' => String (lower_char c) (lower s')
  end.

Fixpoint lstrip (s : string) : string :=
  match s with
  | EmptyString => EmptyString
  | String c s' => if is_space c then lstrip s' else s
  end.

Fixpoint rstrip (s : string) : string :=
  match s with
  | EmptyString => EmptyString
  | String c s' =>
      match rstrip s' with
      | EmptyString => if is_space c then EmptyString else String c EmptyString
      | r => String c r
      end
  end.

(** [s.strip()] *)
Definition strip (s : string) : string := rstrip (lstrip s).

Fixpoint starts_with (p s : string) : bool :=
  match p, s with
  | EmptyString, _ => true
  | String a p', String b s' => if Ascii.eqb a b then starts_with p' s' else false
  | String _ _, EmptyString => false
  end.

(** [needle in hay] *)
Fixpoint contains (needle hay : string) : bool :=
  starts_with needle hay ||
  match hay with
  | EmptyString => false
  | String _ hay' => contains needle hay'
  end.

(** [s.split(sep)] for a one-character separator. *)
Fixpoint split (sep : ascii) (s : string) : list string :=
  match s with
  | EmptyString => [EmptyString]
  | String c s' =>
      if Ascii.eqb c sep then EmptyString :: split sep s'
      else match split sep s' with
           | [] => [String c EmptyString]
           | w :: ws => String c w :: ws
           end
  end.

(** [[c for c in s]]: iterating a string yields its characters. *)
Fixpoint chars (s : string) : list string :=
  match s with
  | EmptyString => []
  | String c s' => String c EmptyString :: chars s'
  end.

(** [sep.join(l)] *)
Fixpoint join (sep : string) (l : list string) : string :=
  match l with
  | [] => EmptyString
  | [x] => x
  | x :: l' => x ++ sep ++ join sep l'
  end.

(** A string is falsy exactly when it is empty. *)
Definition truthy (s : string) : bool :=
  match s with EmptyString => false | _ => true end.

End Text.

(** ** Numbers

    Python's [int] is [Z].  A [float] is a binary64 value: a finite one is
    represented by the rational it denotes, and every operation that
    produces a float rounds to the nearest binary64 (ties to even) through
    [round64].  Comparisons between floats and integers are exact, as in
    CPython. *)

Module Num.

Inductive pyfloat : Set :=
| FNan
| FPosInf
| FNegInf
| FNegZero
| FFin (q : Q).

(** Quotient of [a / b] rounded to the nearest integer, ties to even
    ([0 <= a], [0 < b]). *)
Definition div_half_even (a b : Z) : Z :=
  let q := a / b in
  let r := a mod b in
  match 2 * r ?= b with
  | Lt => q
  | Gt => q + 1
  | Eq => if Z.even q then q else q + 1
  end.

(** [floor (log2 (n / d))] for positive [n] and [d]. *)
Definition log2_floor (n d : Z) : Z :=
  let k := Z.log2 n - Z.log2 d in
  if 0 <=? k
  then (if d * 2 ^ k <=? n then k else k - 1)
  else (if d <=? n * 2 ^ (- k) then k else k - 1).

(** Mantissa and exponent of the binary64 nearest to [n / d] > 0;
    exponents below [-1074] are subnormal. *)
Definition round_pos (n d : Z) : Z * Z :=
  let e := Z.max (log2_floor n d - 52) (-1074) in
  let m := if 0 <=? e then div_half_even n (d * 2 ^ e)
           else div_half_even (n * 2 ^ (- e)) d in
  (m, e).

Definition dyadic (m e : Z) : Q :=
  if 0 <=? e then inject_Z (m * 2 ^ e)
  else Qred (Qmake m (Z.to_pos (2 ^ (- e)))).

Definition overflows (m e : Z) : bool :=
  2 ^ (1024 + 1074) <=? m * 2 ^ (e + 1074).

Definition round64 (q : Q) : pyfloat :=
  match Qnum q with
  | Z0 => FFin 0
  | Zpos n =>
      let '(m, e) := round_pos (Zpos n) (Zpos (Qden q)) in
      if overflows m e then FPosInf else FFin (dyadic m e)
  | Zneg n =>
      let '(m, e) := round_pos (Zpos n) (Zpos (Qden q)) in
      if overflows m e then FNegInf
      else if m =? 0 then FNegZero else FFin (dyadic (- m) e)
  end.

(** Rational denoted by a float that is neither NaN nor infinite. *)
Definition fin (x : pyfloat) : Q :=
  match x with
  | FFin q => q
  | _ => 0%Q
  end.

(** [x < y], [x <= y] and [x == y] on floats. *)
Definition flt (x y : pyfloat) : bool :=
  match x, y with
  | FNan, _ | _, FNan => false
  | FPosInf, _ => false
  | _, FNegInf => false
  | _, FPosInf => true
  | FNegInf, _ => true
  | _, _ => negb (Qle_bool (fin y) (fin x))
  end.

Definition fle (x y : pyfloat) : bool :=
  match x, y with
  | FNan, _ | _, FNan => false
  | FNegInf, _ => true
  | _, FPosInf => true
  | FPosInf, _ => false
  | _, FNegInf => false
  | _, _ => Qle_bool (fin x) (fin y)
  end.

Definition feq (x y : pyfloat) : bool :=
  match x, y with
  | FNan, _ | _, FNan => false
  | FPosInf, FPosInf => true
  | FNegInf, FNegInf => true
  | FPosInf, _ | _, FPosInf | FNegInf, _ | _, FNegInf => false
  | _, _ => Qeq_bool (fin x) (fin y)
  end.

(** A Python number: [int] or [float]. *)
Inductive num : Set :=
| NInt (z : Z)
| NFloat (x : pyfloat).

(** Exact embedding used by mixed comparisons. *)
Definition ext (n : num) : pyfloat :=
  match n with
  | NInt z => FFin (inject_Z z)
  | NFloat x => x
  end.

Definition lt (a b : num) : bool := flt (ext a) (ext b).
Definition le (a b : num) : bool := fle (ext a) (ext b).
Definition eq (a b : num) : bool := feq (ext a) (ext b).

(** [float(z)] for an [int]; [OverflowError] beyond the binary64 range. *)
Definition float_of_Z (z : Z) : result pyfloat :=
  match round64 (inject_Z z) with
  | FPosInf | FNegInf => raise OverflowError
  | x => ret x
  end.

(** [int(x)] for a [float]: truncation towards zero. *)
Definition Z_of_float (x : pyfloat) : result Z :=
  match x with
  | FNan => raise ValueError
  | FPosInf | FNegInf => raise OverflowError
  | FNegZero => ret 0
  | FFin q => ret (Z.quot (Qnum q) (Zpos (Qden q)))
  end.

(** [x + y] and [x * y] on floats with a finite, non-zero right operand. *)
Definition fadd (x : pyfloat) (y : Q) : pyfloat :=
  match x with
  | FFin q => round64 (q + y)
  | FNegZero => round64 y
  | other => other
  end.

Definition fmul_pos (x : pyfloat) (y : Q) : pyfloat :=
  match x with
  | FFin q => round64 (q * y)
  | other => other
  end.

(** Truthiness of a float: [0.0] and [-0.0] are falsy. *)
Definition ftruthy (x : pyfloat) : bool :=
  match x with
  | FNegZero => false
  | FFin q => negb (Qeq_bool q 0)
  | _ => true
  end.

End Num.

(** ** Conversions between text and numbers: [int(s)], [float(s)], [str(n)] *)

Module Conv.
Import Text Num.

Definition digit_val (c : ascii) : Z := Z.of_N (code c) - 48.

Definition is_char (n : N) (c : ascii) : bool := (code c =? n)%N.

(** Remaining digits of a [digitpart]: [digit (["_"] digit)*]. Returns the
    value read so far, the number of digits, and the unread rest. *)
Fixpoint digits_go (s : string) (acc : Z) (n : Z) : Z * Z * string :=
  match s with
  | String c s' =>
      if is_digit c then digits_go s' (acc * 10 + digit_val c) (n + 1)
      else if is_char 95 c then
        match s' with
        | String c' s'' =>
            if is_digit c'
            then digits_go s'' (acc * 10 + digit_val c') (n + 1)
            else (acc, n, s)
        | EmptyString => (acc, n, s)
        end
      else (acc, n, s)
  | EmptyString => (acc, n, s)
  end.

Definition digitpart (s : string) : option (Z * Z * string) :=
  match s with
  | String c s' => if is_digit c then Some (digits_go s' (digit_val c) 1) else None
  | EmptyString => None
  end.

(** Optional sign; [true] stands for a minus sign. *)
Definition sign (s : string) : bool * string :=
  match s with
  | String c s' =>
      if is_char 45 c then (true, s')
      else if is_char 43 c then (false, s')
      else (false, s)
  | EmptyString => (false, s)
  end.

(** [int(s)] for a string, base ten. *)
Definition int_of_string (s : string) : result Z :=
  let '(neg, body) := sign (strip s) in
  match digitpart body with
  | Some (v, _, EmptyString) => ret (if neg then - v else v)
  | _ => raise ValueError
  end.

(** [[digitpart] "." digitpart | digitpart ["."]]: the digits read as an
    integer, and the number of them that follow the point. *)
Definition number (s : string) : option (Z * Z * string) :=
  match digitpart s with
  | Some (i, _, String c rest) =>
      if is_char 46 c then
        match digitpart rest with
        | Some (f, k, rest') => Some (i * 10 ^ k + f, k, rest')
        | None => Some (i, 0, rest)
        end
      else Some (i, 0, String c rest)
  | Some (i, _, EmptyString) => Some (i, 0, EmptyString)
  | None =>
      match s with
      | String c rest =>
          if is_char 46 c then
            match digitpart rest with
            | Some (f, k, rest') => Some (f, k, rest')
            | None => None
            end
          else None
      | EmptyString => None
      end
  end.

(** [("e" | "E") [sign] digitpart], or nothing. *)
Definition exponent (s : string) : option (Z * string) :=
  match s with
  | String c rest =>
      if is_char 101 c || is_char 69 c then
        let '(neg, body) := sign rest in
        match digitpart body with
        | Some (v, _, rest') => Some (if neg then - v else v, rest')
        | None => None
        end
      else None
  | EmptyString => Some (0, EmptyString)
  end.

Definition scale10 (m e : Z) : Q :=
  if 0 <=? e then inject_Z (m * 10 ^ e)
  else Qmake m (Z.to_pos (10 ^ (- e))).

(** [float(s)] for a string. *)
Definition float_of_string (s : string) : result pyfloat :=
  let '(neg, body) := sign (strip s) in
  let low := lower body in
  if String.eqb low "inf" || String.eqb low "infinity"
  then ret (if neg then FNegInf else FPosInf)
  else if String.eqb low "nan" then ret FNan
  else
    match number body with
    | Some (m, k, rest) =>
        match exponent rest with
        | Some (e, EmptyString) =>
            if m =? 0 then ret (if neg then FNegZero else FFin 0)
            else ret (round64 (scale10 (if neg then - m else m) (e - k)))
        | _ => raise ValueError
        end
    | None => raise ValueError
    end.

Definition digit_char (n : N) : ascii := ascii_of_N (48 + n).

Fixpoint dec_go (fuel : nat) (n : N) (acc : string) : string :=
  match fuel with
  | O => acc
  | S fuel' =>
      let acc' := String (digit_char (n mod 10)) acc in
      if (n / 10 =? 0)%N then acc' else dec_go fuel' (n / 10)%N acc'
  end.

(** Decimal digits of a natural number. *)
Definition dec (n : N) : string := dec_go (S (N.to_nat (N.log2 n))) n EmptyString.

(** [str(z)] for an [int]. *)
Definition string_of_Z (z : Z) : string :=
  match z with
  | Zneg p => "-" ++ dec (Npos p)
  | _ => dec (Z.to_N z)
  end.

(** [floor (log10 (n / d))] for positive [n] and [d]. *)
Definition log10_floor (n d : Z) : Z :=
  let digits z := Z.of_nat (String.length (dec (Z.to_N z))) in
  let k := digits n - digits d in
  if 0 <=? k
  then (if d * 10 ^ k <=? n then k else k - 1)
  else (if d <=? n * 10 ^ (- k) then k else k - 1).

(** The decimal with [k] significant digits that reads back as [x] and is
    nearest to [q], if there is one: digits [D] and exponent [s], for the
    value [D * 10 ^ s].  [q] is positive and [p10 = floor (log10 q)]. *)
Definition candidate (q : Q) (x : pyfloat) (p10 k : Z) : option (Z * Z) :=
  let s := p10 - k + 1 in
  let scaled := (q * scale10 1 (- s))%Q in
  let lo := Qfloor scaled in
  let hi := lo + 1 in
  let ok d := feq (round64 (scale10 d s)) x in
  match ok lo, ok hi with
  | true, false => Some (lo, s)
  | false, true => Some (hi, s)
  | false, false => None
  | true, true =>
      match (scaled + scaled ?= inject_Z (lo + hi))%Q with
      | Lt => Some (lo, s)
      | Gt => Some (hi, s)
      | Eq => Some (if Z.even lo then lo else hi, s)
      end
  end.

Fixpoint shortest (fuel : nat) (q : Q) (x : pyfloat) (p10 k : Z) : Z * Z :=
  match fuel with
  | O => (Qfloor (q * scale10 1 (k - 1 - p10))%Q, p10 - k + 1)
  | S fuel' =>
      match candidate q x p10 k with
      | Some r => r
      | None => shortest fuel' q x p10 (k + 1)
      end
  end.

Fixpoint zeros (n : nat) : string :=
  match n with
  | O => EmptyString
  | S n' => String "0" (zeros n')
  end.

(** Drop the zeros that end a digit string, keeping one digit. *)
Fixpoint strip_zeros (s : string) : string :=
  match s with
  | EmptyString => EmptyString
  | String c s' =>
      match strip_zeros s' with
      | EmptyString => if is_char 48 c then EmptyString else String c EmptyString
      | r => String c r
      end
  end.

Definition take (n : nat) (s : string) : string := String.substring 0 n s.
Definition drop (n : nat) (s : string) : string :=
  String.substring n (String.length s - n) s.

(** Layout of [repr] for the digits [ds] of a value [0.ds * 10 ^ decpt]. *)
Definition layout (ds : string) (decpt : Z) : string :=
  let nd := Z.of_nat (String.length ds) in
  if (decpt <=? -4) || (16 <? decpt) then
    let e := decpt - 1 in
    let mant := if 1 <? nd then take 1 ds ++ "." ++ drop 1 ds else ds in
    let ed := dec (Z.to_N (Z.abs e)) in
    mant ++ "e" ++ (if e <? 0 then "-" else "+")
         ++ (if Z.abs e <? 10 then "0" ++ ed else ed)
  else if decpt <=? 0 then "0." ++ zeros (Z.to_nat (- decpt)) ++ ds
  else if nd <=? decpt then ds ++ zeros (Z.to_nat (decpt - nd)) ++ ".0"
  else take (Z.to_nat decpt) ds ++ "." ++ drop (Z.to_nat decpt) ds.

Definition repr_pos (q : Q) : string :=
  let p10 := log10_floor (Qnum q) (Zpos (Qden q)) in
  let '(d, s) := shortest 17 q (FFin q) p10 1 in
  let all := dec (Z.to_N d) in
  let ds := match strip_zeros all with EmptyString => "0" | r => r end in
  layout ds (Z.of_nat (String.length all) + s).

(** [repr(x)], which is also [str(x)], for a [float]. *)
Definition string_of_float (x : pyfloat) : string :=
  match x with
  | FNan => "nan"
  | FPosInf => "inf"
  | FNegInf => "-inf"
  | FNegZero => "-0.0"
  | FFin q =>
      match Qnum q with
      | Z0 => "0.0"
      | Zpos _ => repr_pos q
      | Zneg _ => "-" ++ repr_pos (- q)
      end
  end.

End Conv.

(** ** JSON values and records

    A record (one monster or one item) is a Python [dict] from field names
    to JSON values: [None], booleans, numbers, strings and lists of strings. *)

Inductive value : Set :=
| VNone
| VBool (b : bool)
| VInt (z : Z)
| VFloat (x : Num.pyfloat)
| VStr (s : string)
| VList (l : list string).

Abbreviation record := (gmap string value).

Module Py.
Import Text Num Conv.

(** [d.get(k, dflt)] *)
Definition get (d : record) (k : string) (dflt : value) : value :=
  default dflt (d !! k).

(** [d[k]] *)
Definition item (d : record) (k : string) : result value :=
  match d !! k with
  | Some v => ret v
  | None => raise KeyError
  end.

(** [k in d] *)
Definition has (d : record) (k : string) : bool := bool_decide (is_Some (d !! k)).

(** Numeric reading of the values that behave as numbers ([bool] is a
    subclass of [int]). *)
Definition as_num (v : value) : option num :=
  match v with
  | VBool b => Some (NInt (if b then 1 else 0))
  | VInt z => Some (NInt z)
  | VFloat x => Some (NFloat x)
  | _ => None
  end.

(** [v is None] *)
Definition is_none (v : value) : bool :=
  match v with VNone => true | _ => false end.

(** [bool(v)] *)
Definition truthy (v : value) : bool :=
  match v with
  | VNone => false
  | VBool b => b
  | VInt z => negb (z =? 0)
  | VFloat x => ftruthy x
  | VStr s => Text.truthy s
  | VList l => match l with [] => false | _ => true end
  end.

Definition list_eqb (a b : list string) : bool :=
  bool_decide (a = b).

(** [a == b] *)
Definition eqv (a b : value) : bool :=
  match as_num a, as_num b with
  | Some x, Some y => Num.eq x y
  | _, _ =>
      match a, b with
      | VNone, VNone => true
      | VStr s, VStr t => String.eqb s t
      | VList l, VList k => list_eqb l k
      | _, _ => false
      end
  end.

(** [n <= v] and [v <= n] for a number [n]; ordering a number against
    [None], a string or a list raises [TypeError]. *)
Definition num_le_value (n : num) (v : value) : result bool :=
  match as_num v with
  | Some m => ret (Num.le n m)
  | None => raise TypeError
  end.

Definition value_le_num (v : value) (n : num) : result bool :=
  match as_num v with
  | Some m => ret (Num.le m n)
  | None => raise TypeError
  end.

(** [float(v)] *)
Definition float (v : value) : result pyfloat :=
  match v with
  | VStr s => float_of_string s
  | VInt z => float_of_Z z
  | VBool b => ret (FFin (if b then 1 else 0))
  | VFloat x => ret x
  | VNone | VList _ => raise TypeError
  end.

(** [int(v)] *)
Definition int (v : value) : result Z :=
  match v with
  | VStr s => int_of_string s
  | VInt z => ret z
  | VBool b => ret (if b then 1 else 0)
  | VFloat x => Z_of_float x
  | VNone | VList _ => raise TypeError
  end.

Definition hex_digit (n : N) : ascii :=
  if (n <? 10)%N then ascii_of_N (48 + n) else ascii_of_N (87 + n).

Definition has_char (n : N) (s : string) : bool :=
  existsb (is_char n) (list_ascii_of_string s).

(** One character of [repr(s)], inside quotes [q]. *)
Definition repr_char (q : ascii) (c : ascii) : string :=
  let n := code c in
  if Ascii.eqb c q || (n =? 92)%N then String "\" (String c EmptyString)
  else if (n =? 9)%N then "\t"
  else if (n =? 10)%N then "\n"
  else if (n =? 13)%N then "\r"
  else if (n <? 32)%N || (n =? 127)%N
       then "\x" ++ String (hex_digit (n / 16)) (String (hex_digit (n mod 16)) EmptyString)
  else String c EmptyString.

(** [repr(s)] for a string: single quotes, unless the string holds a
    single quote and no double quote. *)
Definition repr_string (s : string) : string :=
  let q := if has_char 39 s && negb (has_char 34 s) then ascii_of_N 34 else ascii_of_N 39 in
  String q (String.concat EmptyString (map (repr_char q) (list_ascii_of_string s)) ++ String q EmptyString).

(** [str(v)] *)
Definition str (v : value) : string :=
  match v with
  | VNone => "None"
  | VBool b => if b then "True" else "False"
  | VInt z => string_of_Z z
  | VFloat x => string_of_float x
  | VStr s => s
  | VList l => "[" ++ join ", " (map repr_string l) ++ "]"
  end.

End Py.

(** ** Object stores

    Lists and dicts are mutable objects: a variable holds a location, and
    two variables holding the same location see each other's updates. *)

Abbreviation loc := positive.

(** A freshly created object. *)
Definition alloc {V} (h : gmap loc V) (v : V) : gmap loc V * loc :=
  let l := fresh (dom h) in (<[l := v]> h, l).

Arguments alloc : simpl never.

(** ** [list.sort(key=..., reverse=...)]

    The keys are computed first; the list is then ordered by a stable sort
    that only uses [<] on keys.  With [reverse=True], CPython reverses the
    list, sorts it, and reverses the result, which keeps equal keys in
    their original relative order.  The result of a stable sort is unique
    when [<] is a strict weak order on the keys, and the insertion sort
    below then returns the list that CPython's merge sort returns.  With a
    NaN among the keys [<] is no such order: the list returned is still a
    permutation, but its order depends on the algorithm, and the one given
    here is CPython's only where the two happen to take the same steps (as
    on a list that CPython finds already in one run). *)

Module ListSort.
Section Sort.
Context {K A : Type} (ltb : K -> K -> bool).

(** Insertion after the elements whose key is below that of [x], before
    the others: [x] stays ahead of the elements it ties with. *)
Fixpoint insert (x : K * A) (l : list (K * A)) : list (K * A) :=
  match l with
  | [] => [x]
  | y :: l' => if ltb (fst y) (fst x) then y :: insert x l' else x :: y :: l'
  end.

Fixpoint isort (l : list (K * A)) : list (K * A) :=
  match l with
  | [] => []
  | x :: l' => insert x (isort l')
  end.

(** The list of pairs (key, element), sorted. *)
Definition sort_decorated (reverse : bool) (l : list (K * A)) : list (K * A) :=
  if reverse then rev (isort (rev l)) else isort l.

Definition sort (key : A -> result K) (reverse : bool) (l : list A) : result (list A) :=
  keys ← mapR key l;
  ret (map snd (sort_decorated reverse (zip keys l))).

End Sort.
End ListSort.

(** ** The monster manager *)

Module MonsterManager.
Import Text Num Py.

(** [re.sub(r'[^\w\s-]', '', name)], for a name in ASCII: a character
    above 127 is dropped here, whereas Python keeps the ones its tables
    count as word characters or whitespace. *)
Fixpoint remove_unsafe (s : string) : string :=
  match s with
  | EmptyString => EmptyString
  | String c s' =>
      if is_word c || is_space c || Conv.is_char 45 c
      then String c (remove_unsafe s')
      else remove_unsafe s'
  end.

(** [re.sub(r'\s+', '-', name)]: every maximal run of whitespace becomes
    one hyphen.  [in_run] tells that the previous character was
    whitespace. *)
Fixpoint hyphenate (in_run : bool) (s : string) : string :=
  match s with
  | EmptyString => EmptyString
  | String c s' =>
      if is_space c
      then (if in_run then hyphenate true s' else String "-" (hyphenate true s'))
      else String c (hyphenate false s')
  end.

(** [sanitize_filename(name)], for a name in ASCII. *)
Definition sanitize_filename (name : string) : string :=
  let name := remove_unsafe name in
  let name := hyphenate false name in
  lower name.

Definition MONSTER_DIR : string := "www/data/monster".

Definition get_monster_path (name : string) : string :=
  let filename := sanitize_filename name ++ ".json" in
  MONSTER_DIR ++ "/" ++ filename.

(** *** Filtering and sorting *)

(** One entry of [filter_criteria]; [CEmpty] is a falsy entry ([{}]). *)
Inductive criterion : Set :=
| CEmpty
| CRange (min max : num)
| CContains (value : string)
| CEquals (value : value).

(** The attributes of [MonsterManagerGUI] read by
    [apply_filters_and_sort]; [search_var] is the text of the search box. *)
Record filter_state : Set := {
  search_var : string;
  filter_criteria : list (string * criterion);
  sort_column : string;
  sort_reverse : bool
}.

(** The texts searched in one monster. *)
Definition searchable (monster : record) : result (list string) :=
  let fields :=
    map (fun field => lower (str (get monster field (VStr EmptyString))))
        ["name"; "type"; "alignment"] in
  match monster !! "tags" with
  | None => ret fields
  | Some (VList tags) => ret (fields ++ map lower tags)%list
  | Some (VStr tags) => ret (fields ++ map lower (chars tags))%list
  | Some _ => raise TypeError
  end.

Definition matches_search (search_query : string) (monster : record) : result bool :=
  texts ← searchable monster;
  ret (existsb (contains search_query) texts).

(** The test of one active criterion on one monster. *)
Definition criterion_test (field : string) (criteria : criterion) (m : record)
  : result bool :=
  match criteria with
  | CEmpty => ret true
  | CRange min_val max_val =>
      let v := get m field (VInt 0) in
      below ← num_le_value min_val v;
      if below : bool then value_le_num v max_val else ret false
  | CContains value =>
      ret (contains (lower value) (lower (str (get m field (VStr EmptyString)))))
  | CEquals value =>
      ret (eqv (get m field VNone) value)
  end.

Inductive sort_key_value : Set :=
| KNum (n : num)
| KStr (s : string).

(** [<] on sort keys; one call of [sort] only ever compares keys of the
    same kind. *)
Definition key_ltb (a b : sort_key_value) : bool :=
  match a, b with
  | KNum x, KNum y => Num.lt x y
  | KStr s, KStr t => String.ltb s t
  | _, _ => false
  end.

Definition sortable_columns : list string :=
  ["name"; "challenge_rating"; "type"; "size"; "armor_class"; "hit_points"; "alignment"].

Definition sort_key (sort_column : string) (monster : record) : result sort_key_value :=
  let value := get monster sort_column (VStr EmptyString) in
  if String.eqb sort_column "challenge_rating" then
    if negb (eqv value (VStr EmptyString))
    then x ← float value; ret (KNum (NFloat x))
    else ret (KNum (NInt 0))
  else if bool_decide (sort_column ∈ ["armor_class"; "hit_points"]) then
    if negb (eqv value (VStr EmptyString))
    then z ← int value; ret (KNum (NInt z))
    else ret (KNum (NInt 0))
  else ret (KStr (lower (str value))).

Abbreviation list_store := (gmap loc (list record)).

(** Quick search: a new list when the query is not empty. *)
Definition search_step (self : filter_state) (h : list_store) (monsters : loc)
  : result (list_store * loc) :=
  let search_query := lower (strip (search_var self)) in
  if Text.truthy search_query then
    filtered ← filterR (matches_search search_query) (h !!! monsters);
    ret (alloc h filtered)
  else ret (h, monsters).

(** Advanced filters: every active criterion builds a new list. *)
Fixpoint criteria_step (items : list (string * criterion))
    (h : list_store) (filtered : loc) : result (list_store * loc) :=
  match items with
  | [] => ret (h, filtered)
  | (field, criteria) :: items' =>
      match criteria with
      | CEmpty => criteria_step items' h filtered
      | _ =>
          kept ← filterR (criterion_test field criteria) (h !!! filtered);
          let '(h', filtered') := alloc h kept in
          criteria_step items' h' filtered'
      end
  end.

(** Sort: in place, on whatever list [filtered] refers to. *)
Definition sort_step (self : filter_state) (h : list_store) (filtered : loc)
  : result (list_store * loc) :=
  if Text.truthy (sort_column self)
     && bool_decide (sort_column self ∈ sortable_columns)
  then
    sorted ← ListSort.sort key_ltb (sort_key (sort_column self))
               (sort_reverse self) (h !!! filtered);
    ret (<[filtered := sorted]> h, filtered)
  else ret (h, filtered).

(** [apply_filters_and_sort(self, monsters)]: the store after the call and
    the location of the returned list. *)
Definition apply_filters_and_sort (self : filter_state) (h : list_store)
    (monsters : loc) : result (list_store * loc) :=
  '(h1, filtered) ← search_step self h monsters;
  '(h2, filtered) ← criteria_step (filter_criteria self) h1 filtered;
  sort_step self h2 filtered.

(** *** Bulk changes and saving *)

(** [list(set(l))]: the elements of [l] without repetition, in the
    iteration order of the set, which depends on the hashes of the
    strings and is left unspecified. *)
Record set_iteration : Type := {
  list_of_set : list string -> list string;
  list_of_set_NoDup : forall l, NoDup (list_of_set l);
  list_of_set_elem : forall l x, x ∈ list_of_set l <-> x ∈ l
}.

(** Calls of [messagebox]. *)
Inductive message : Set :=
| NoSelection                    (* "Please select monsters to bulk edit." *)
| SaveFailed (e : exn)           (* "Failed to save monster: {e}" *)
| BulkApplied (count : Z)        (* "Bulk changes applied to {count} monsters!" *)
| InvalidNumber (field : string) (* "Invalid number for {field_name}" *).

(** The dict objects, the two lists of the GUI that refer to them, the
    JSON files of [MONSTER_DIR] (path to the object written), and the
    message boxes shown so far (latest first). *)
Record app : Type := {
  heap : gmap loc record;
  monsters_data : list loc;
  selected_monsters : list loc;
  files : gmap string record;
  dialogs : list message
}.

Definition set_heap (st : app) (h : gmap loc record) : app :=
  {| heap := h; monsters_data := monsters_data st;
     selected_monsters := selected_monsters st;
     files := files st; dialogs := dialogs st |}.

Definition set_files (st : app) (f : gmap string record) : app :=
  {| heap := heap st; monsters_data := monsters_data st;
     selected_monsters := selected_monsters st;
     files := f; dialogs := dialogs st |}.

Definition show (st : app) (m : message) : app :=
  {| heap := heap st; monsters_data := monsters_data st;
     selected_monsters := selected_monsters st;
     files := files st; dialogs := m :: dialogs st |}.

(** [max(a, b)]: [b] when [b > a], else [a]. *)
Definition py_max (a b : value) : result value :=
  match as_num a, as_num b with
  | Some x, Some y => ret (if Num.lt x y then b else a)
  | _, _ => raise TypeError
  end.

(** [v + 1] *)
Definition plus_one (v : value) : result value :=
  match v with
  | VBool b => ret (VInt ((if b then 1 else 0) + 1))
  | VInt z => ret (VInt (z + 1))
  | VFloat x => ret (VFloat (fadd x 1))
  | _ => raise TypeError
  end.

Definition next_id (h : gmap loc record) (monsters_data : list loc) : result value :=
  max_id ← foldlR (fun max_id l => py_max max_id (get (h !!! l) "id" (VInt 0)))
                  (VInt 0) monsters_data;
  plus_one max_id.

(** [if 'id' not in monster_data: ... monster_data['id'] = max_id + 1] *)
Definition assign_id (st : app) (r : loc) : result app :=
  let monster_data := heap st !!! r in
  if has monster_data "id" then ret st
  else
    id ← next_id (heap st) (monsters_data st);
    ret (set_heap st (<[r := <["id" := id]> monster_data]> (heap st))).

(** The object handed to [json.dump]. *)
Definition clean (monster_data : record) : record :=
  let clean_data := filter (fun kv => kv.1 <> "filename") monster_data in
  if has clean_data "tags" && negb (truthy (get clean_data "tags" VNone))
  then delete "tags" clean_data
  else clean_data.

Definition monster_file (monster_data : record) : result (string * record) :=
  name ← item monster_data "name";
  match name with
  | VStr name => ret (get_monster_path name, clean monster_data)
  | _ => raise TypeError
  end.

(** [save_monster(self, monster_data)]; the whole body sits in
    [try: ... except Exception], so the call itself never raises.
    Failures of the file system are not modelled. *)
Definition save_monster (st : app) (r : loc) : app :=
  match assign_id st r with
  | inl e => show st (SaveFailed e)
  | inr st1 =>
      match monster_file (heap st1 !!! r) with
      | inl e => show st1 (SaveFailed e)
      | inr (monster_path, clean_data) =>
          set_files st1 (<[monster_path := clean_data]> (files st1))
      end
  end.

Section Bulk.
Context (order : set_iteration).

(** [[tag.strip() for tag in value.split(',') if tag.strip()]] *)
Definition new_tags (value : string) : list string :=
  filter (fun tag => Text.truthy tag = true) (map strip (split "," value)).

(** One iteration of [for field, value in changes.items()]. *)
Definition apply_change (state : record * bool) (change : string * value)
  : result (record * bool) :=
  let '(monster, modified) := state in
  let '(field, value) := change in
  if negb (is_none value) && negb (eqv value (VStr EmptyString)) then
    match String.eqb field "tags", value with
    | true, VStr value =>
        match get monster "tags" (VList []) with
        | VList existing_tags =>
            let all_tags := list_of_set order (existing_tags ++ new_tags value)%list in
            ret (match all_tags with
                 | [] => monster
                 | _ => <["tags" := VList all_tags]> monster
                 end, true)
        | _ => raise TypeError
        end
    | _, _ => ret (<[field := value]> monster, true)
    end
  else ret (monster, modified).

Fixpoint bulk_loop (changes : list (string * value)) (selected : list loc)
    (st : app) (count : Z) : result (app * Z) :=
  match selected with
  | [] => ret (st, count)
  | r :: selected' =>
      '(monster, modified) ← foldlR apply_change (heap st !!! r, false) changes;
      let st := set_heap st (<[r := monster]> (heap st)) in
      if modified : bool
      then bulk_loop changes selected' (save_monster st r) (count + 1)
      else bulk_loop changes selected' st count
  end.

(** [apply_bulk_changes(self, changes)], up to the message box; the
    call ends with [refresh_monster_list()], which reads the directory
    again for display and leaves the selected dicts alone. *)
Definition apply_bulk_changes (st : app) (changes : list (string * value))
  : result (app * Z) :=
  '(st, count) ← bulk_loop changes (selected_monsters st) st 0;
  ret (show st (BulkApplied count), count).

(** *** The bulk edit dialog *)

Inductive dialog_result : Set :=
| Invalid (field_name : string)   (* error box; [result] stays [None] *)
| Result (changes : list (string * value)).

(** The entries of [BulkEditDialog], in the order of [field_vars]. *)
Definition dialog_fields : list string :=
  ["challenge_rating"; "type"; "size"; "armor_class"; "hit_points";
   "alignment"; "tags"].

(** [BulkEditDialog.apply_changes]: [field_vars] pairs each field with
    the text typed for it. *)
Fixpoint apply_changes (field_vars : list (string * string))
    (changes : list (string * value)) : result dialog_result :=
  match field_vars with
  | [] => ret (Result changes)
  | (field_name, var) :: rest =>
      let value := strip var in
      if Text.truthy value then
        if bool_decide (field_name ∈ ["challenge_rating"]) then
          match Conv.float_of_string value with
          | inr x => apply_changes rest (changes ++ [(field_name, VFloat x)])
          | inl ValueError => ret (Invalid field_name)
          | inl e => raise e
          end
        else if bool_decide (field_name ∈ ["armor_class"; "hit_points"]) then
          match Conv.int_of_string value with
          | inr z => apply_changes rest (changes ++ [(field_name, VInt z)])
          | inl ValueError => ret (Invalid field_name)
          | inl e => raise e
          end
        else apply_changes rest (changes ++ [(field_name, VStr value)])
      else apply_changes rest changes
  end.

(** [bulk_edit_dialog(self)] for one press of "Apply Changes". *)
Definition bulk_edit_dialog (st : app) (field_vars : list (string * string))
  : result app :=
  match selected_monsters st with
  | [] => ret (show st NoSelection)
  | _ =>
      outcome ← apply_changes field_vars [];
      match outcome with
      | Invalid field_name => ret (show st (InvalidNumber field_name))
      | Result [] => ret st
      | Result changes => '(st', _) ← apply_bulk_changes st changes; ret st'
      end
  end.

End Bulk.

(** One possible iteration order: every string at the place of its last
    occurrence in the list. *)
Program Definition sample_order : set_iteration :=
  {| list_of_set := remove_dups |}.
Next Obligation. intros l. apply NoDup_remove_dups. Qed.
Next Obligation. intros l x. apply elem_of_remove_dups. Qed.

End MonsterManager.

(** ** The item editor *)

Module ItemEditor.
Import Text Num Py.

(** [self.items]: file stem to item. *)
Abbreviation items := (gmap string record).

(** [gp_to_cp(self, gp_value)] for a float argument. *)
Definition gp_to_cp (gp_value : pyfloat) : result Z :=
  let gp := if ftruthy gp_value then gp_value else FFin 0 in
  match Z_of_float (fmul_pos gp 100) with
  | inl ValueError | inl TypeError => ret 0
  | r => r
  end.

(** [self.items[key][field] = v] *)
Definition set_field (its : items) (key field : string) (v : value) : result items :=
  match its !! key with
  | Some it => ret (<[key := <[field := v]> it]> its)
  | None => raise KeyError
  end.

(** Body of [for key in selected_keys] in [apply_bulk_edit]. *)
Definition edit_item (field new_value : string) (its : items) (key : string)
  : result items :=
  if String.eqb field "price" && Text.truthy new_value then
    match Conv.float_of_string new_value with
    | inr gp => cp ← gp_to_cp gp; set_field its key field (VInt cp)
    | inl ValueError => ret its
    | inl e => raise e
    end
  else if bool_decide (field ∈ ["weight"; "stack"]) && Text.truthy new_value then
    if String.eqb field "weight" then
      match Conv.float_of_string new_value with
      | inr x => set_field its key field (VFloat x)
      | inl ValueError => ret its
      | inl e => raise e
      end
    else
      match Conv.int_of_string new_value with
      | inr z => set_field its key field (VInt z)
      | inl ValueError => ret its
      | inl e => raise e
      end
  else if bool_decide (lower new_value ∈ ["none"; "null"; EmptyString])
  then set_field its key field VNone
  else set_field its key field (VStr new_value).

(** The loop of [apply_bulk_edit()] over [bulk_checkboxes]: [widgets]
    lists, for every field of the dialog, whether its checkbox is ticked and
    the text of its editor. Returns the items and [changes_made]. *)
Fixpoint edit_fields (widgets : list (string * bool * string))
    (selected_keys : list string) (its : items) (changes_made : Z)
  : result (items * Z) :=
  match widgets with
  | [] => ret (its, changes_made)
  | (field, checked, text) :: rest =>
      if checked : bool then
        let new_value := strip text in
        its' ← foldlR (edit_item field new_value) its selected_keys;
        edit_fields rest selected_keys its' (changes_made + 1)
      else edit_fields rest selected_keys its changes_made
  end.

(** "Applied {changes_made} field changes to {len(selected_keys)} items" *)
Inductive message : Set :=
| FieldChanges (changes_made : Z) (selected : nat).

(** [apply_bulk_edit()]: the items after the edit, and the message box
    shown, if any. *)
Definition apply_bulk_edit (widgets : list (string * bool * string))
    (selected_keys : list string) (its : items) : result (items * option message) :=
  '(its', changes_made) ← edit_fields widgets selected_keys its 0;
  ret (its', if 0 <? changes_made
             then Some (FieldChanges changes_made (length selected_keys))
             else None).

(** [v.lower()] *)
Definition lower_of (v : value) : result string :=
  match v with
  | VStr s => ret (lower s)
  | _ => raise AttributeError
  end.

(** [any(query in x.lower() for x in v)] *)
Definition any_lower (query : string) (v : value) : result bool :=
  match v with
  | VList l => ret (existsb (fun x => contains query (lower x)) l)
  | VStr s => ret (existsb (fun x => contains query (lower x)) (chars s))
  | _ => raise TypeError
  end.

Definition item_matches_search (item : record) (query : string) : result bool :=
  name ← lower_of (get item "name" (VStr EmptyString));
  if contains query name then ret true else
  type ← lower_of (get item "type" (VStr EmptyString));
  if contains query type then ret true else
  description ← lower_of (get item "description" (VStr EmptyString));
  if contains query description then ret true else
  in_tags ← (if truthy (get item "tags" VNone)
             then any_lower query (get item "tags" VNone) else ret false);
  if in_tags : bool then ret true else
  if truthy (get item "notes" VNone)
  then any_lower query (get item "notes" VNone) else ret false.

(** [tag_filter not in item_tags] *)
Definition lacks_tag (tag_filter : string) (item_tags : value) : result bool :=
  match item_tags with
  | VList l => ret (negb (bool_decide (tag_filter ∈ l)))
  | VStr s => ret (negb (contains tag_filter s))
  | _ => raise TypeError
  end.

(** The filters of [refresh_item_list]: whether an item is shown. *)
Definition shown (type_filter tag_filter search_query : string) (item : record)
  : result bool :=
  if negb (String.eqb type_filter "All")
     && negb (eqv (get item "type" (VStr "Unknown")) (VStr type_filter))
  then ret false else
  skip ← (if negb (String.eqb tag_filter "All")
          then lacks_tag tag_filter (get item "tags" (VList []))
          else ret false);
  if skip : bool then ret false else
  if Text.truthy search_query
  then item_matches_search item search_query
  else ret true.

(** [filtered_items] of [refresh_item_list], in the iteration order of
    [self.items]; [search_var] is the text of the search box. *)
Definition filter_items (type_filter tag_filter search_var : string)
    (its : list (string * record)) : result (list (string * record)) :=
  let search_query := lower search_var in
  filterR (fun entry => shown type_filter tag_filter search_query (snd entry)) its.

End ItemEditor.

(** * Vocabulary of the properties *)

(** What a comprehension keeps, when no test raises. *)
Definition passes {A} (p : A -> result bool) (x : A) : bool :=
  match p x with
  | inr true => true
  | _ => false
  end.

(** [h'] still holds every object of [h], unchanged. *)
Definition extends {V} (h h' : gmap loc V) : Prop :=
  forall l v, h !! l = Some v -> h' !! l = Some v.

(** ** Order and ties *)

Module SortSpec.
Import Text Num Py MonsterManager.

Section Order.
Context {K A : Type} (ltb : K -> K -> bool) (ok : K -> Prop).

Definition keys_ok (l : list (K * A)) : Prop := Forall (fun x => ok x.1) l.

(** [x] may stand before [y]. *)
Definition before (x y : K * A) : Prop := ltb y.1 x.1 = false.

(** Two keys tie when neither is below the other. *)
Definition tie (k k' : K) : bool := negb (ltb k k') && negb (ltb k' k).

Definition apart (x y : K * A) : Prop := ltb x.1 y.1 = true \/ ltb y.1 x.1 = true.

Definition below (x y : K * A) : Prop := ltb x.1 y.1 = true.

End Order.

(** Numeric keys that are not NaN, and string keys. *)
Definition ok_num (k : sort_key_value) : Prop :=
  match k with
  | KNum n => ext n <> FNan
  | KStr _ => False
  end.

Definition ok_str (k : sort_key_value) : Prop :=
  match k with
  | KStr _ => True
  | KNum _ => False
  end.

Definition is_numeric (sort_column : string) : bool :=
  String.eqb sort_column "challenge_rating"
  || bool_decide (sort_column ∈ ["armor_class"; "hit_points"]).

(** A value parsed to a number: a number stands for itself ([True] and
    [False] for 1 and 0), cut to its integral part when an integer is
    wanted; a string is read as a numeral; [None] and lists are refused. *)
Definition parsed (integral : bool) (v : value) : result num :=
  match v with
  | VInt z => if integral then ret (NInt z) else x ← float_of_Z z; ret (NFloat x)
  | VBool b =>
      if integral then ret (NInt (if b then 1 else 0))
      else ret (NFloat (FFin (if b then 1 else 0)))
  | VFloat x => if integral then z ← Z_of_float x; ret (NInt z) else ret (NFloat x)
  | VStr s =>
      if integral then z ← Conv.int_of_string s; ret (NInt z)
      else x ← Conv.float_of_string s; ret (NFloat x)
  | VNone | VList _ => raise TypeError
  end.

(** A value as text: a string is its own text, a number its decimal
    numeral, the other values are written as Python prints them. *)
Definition stringified (v : value) : string :=
  match v with
  | VStr s => s
  | VInt z => Conv.string_of_Z z
  | VFloat x => Conv.string_of_float x
  | VBool true => "True"
  | VBool false => "False"
  | VNone => "None"
  | VList l => "[" ++ join ", " (map repr_string l) ++ "]"
  end.

(** The sort key in the words of the specification.  In the numeric
    columns a missing field and the empty string count as [0], and any
    other value is parsed, to a float for [challenge_rating] and to an
    integer for [armor_class] and [hit_points].  In the other columns the
    key is the text of the value in lower case, empty for a missing
    field. *)
Definition key_spec (sort_column : string) (m : record) : result sort_key_value :=
  if bool_decide (sort_column ∈ ["challenge_rating"; "armor_class"; "hit_points"]) then
    match m !! sort_column with
    | None | Some (VStr EmptyString) => ret (KNum (NInt 0))
    | Some v =>
        n ← parsed (negb (String.eqb sort_column "challenge_rating")) v; ret (KNum n)
    end
  else
    match m !! sort_column with
    | None => ret (KStr EmptyString)
    | Some v => ret (KStr (lower (stringified v)))
    end.

(** Two keys are equal, as [==] has it. *)
Definition key_eqb (a b : sort_key_value) : bool :=
  match a, b with
  | KNum x, KNum y => Num.eq x y
  | KStr s, KStr t => String.eqb s t
  | _, _ => false
  end.

Definition not_nan (k : sort_key_value) : Prop :=
  match k with
  | KNum n => ext n <> FNan
  | KStr _ => True
  end.

(** [a] may stand before [b] in the sorted list. *)
Definition in_order (reverse : bool) (sort_column : string) (a b : record) : Prop :=
  forall ka kb,
    sort_key sort_column a = inr ka -> sort_key sort_column b = inr kb ->
    if reverse then key_ltb ka kb = false else key_ltb kb ka = false.

(** The key of [m] ties with [k]. *)
Definition ties (sort_column : string) (k : sort_key_value) (m : record) : bool :=
  match sort_key sort_column m with
  | inr k' => tie key_ltb k k'
  | inl _ => false
  end.

Definition distinct_keys (keys : list sort_key_value) : Prop :=
  ForallOrdPairs (fun k k' => key_ltb k k' = true \/ key_ltb k' k = true) keys.

Definition flip_direction (self : filter_state) : filter_state :=
  {| search_var := search_var self; filter_criteria := filter_criteria self;
     sort_column := sort_column self; sort_reverse := negb (sort_reverse self) |}.

(** A record paired with its sort key. *)
Definition decorated_ok (col : string) (x : sort_key_value * record) : Prop :=
  sort_key col x.2 = inr x.1.

(** The sort step, run on a store that holds the one list [ms], puts the
    list in order, and puts it in the reverse of that order when the
    direction is flipped. *)
Definition sorts (self : filter_state) (ms : list record) : Prop :=
  exists sorted,
    sort_step self {[ 1%positive := ms ]} 1%positive
    = inr (<[1%positive := sorted]> {[ 1%positive := ms ]}, 1%positive)
    /\ sorted ≡ₚ ms
    /\ StronglySorted (in_order (sort_reverse self) (sort_column self)) sorted
    /\ sort_step (flip_direction self) {[ 1%positive := ms ]} 1%positive
       = inr (<[1%positive := rev sorted]> {[ 1%positive := ms ]}, 1%positive).

End SortSpec.

(** ** Filters *)

Module FilterSpec.
Import Text Num Py MonsterManager.

Definition criterion_active (c : criterion) : bool :=
  match c with
  | CEmpty => false
  | _ => true
  end.

(** Some filter builds a new list. *)
Definition filters_active (self : filter_state) : bool :=
  Text.truthy (lower (strip (search_var self)))
  || existsb (fun fc => criterion_active fc.2) (filter_criteria self).

Definition sort_recognized (self : filter_state) : bool :=
  Text.truthy (sort_column self)
  && bool_decide (sort_column self ∈ sortable_columns).

Definition is_ok {A} (r : result A) : bool :=
  match r with
  | inr _ => true
  | inl _ => false
  end.

(** [tags] is missing, or can be iterated. *)
Definition tags_iterable (m : record) : bool :=
  match m !! "tags" with
  | None | Some (VList _) | Some (VStr _) => true
  | Some _ => false
  end.

(** The field of a range criterion is missing, or holds a number. *)
Definition criterion_ready (m : record) (fc : string * criterion) : bool :=
  match fc.2, m !! fc.1 with
  | CRange _ _, Some v => bool_decide (is_Some (as_num v))
  | _, _ => true
  end.

(** The sort column is missing, or holds the empty string, or holds a value
    that [float] (for [challenge_rating]) or [int] (for [armor_class] and
    [hit_points]) accepts; any value will do for the other columns. *)
Definition sort_ready (sort_column : string) (m : record) : bool :=
  match m !! sort_column with
  | None | Some (VStr EmptyString) => true
  | Some v =>
      if String.eqb sort_column "challenge_rating" then is_ok (float v)
      else if bool_decide (sort_column ∈ ["armor_class"; "hit_points"]) then is_ok (int v)
      else true
  end.

Definition well_formed (self : filter_state) (m : record) : bool :=
  (negb (Text.truthy (lower (strip (search_var self)))) || tags_iterable m)
  && forallb (criterion_ready m) (filter_criteria self)
  && sort_ready (sort_column self) m.

(** [min <= v <= max], where [v] is the field, or [0] when it is missing. *)
Definition in_range (field : string) (lo hi : num) (m : record) : bool :=
  match as_num (get m field (VInt 0)) with
  | Some v => Num.le lo v && Num.le v hi
  | None => false
  end.

Definition numeric_or_missing (field : string) (m : record) : bool :=
  match m !! field with
  | Some v => bool_decide (is_Some (as_num v))
  | None => true
  end.

End FilterSpec.

(** ** Search *)

Module SearchSpec.
Import Text Num Py MonsterManager.

(** [needle] occurs in [hay]. *)
Definition is_substring (needle hay : string) : Prop :=
  exists pre post, hay = pre ++ needle ++ post.

Definition field_text (m : record) (field : string) : string :=
  lower (str (get m field (VStr EmptyString))).

Definition tag_texts (m : record) (field : string) : list string :=
  match m !! field with
  | Some (VList l) => l
  | Some (VStr s) => chars s
  | _ => []
  end.

(** The query occurs in the name, the type, the alignment or some tag. *)
Definition monster_mentions (q : string) (m : record) : bool :=
  contains q (field_text m "name")
  || contains q (field_text m "type")
  || contains q (field_text m "alignment")
  || existsb (fun tag => contains q (lower tag)) (tag_texts m "tags").

Definition item_text (item : record) (field : string) : string :=
  match get item field (VStr EmptyString) with
  | VStr s => lower s
  | _ => EmptyString
  end.

(** The query occurs in the name, the type, the description, some tag or
    some note. *)
Definition item_mentions (q : string) (item : record) : bool :=
  contains q (item_text item "name")
  || contains q (item_text item "type")
  || contains q (item_text item "description")
  || existsb (fun tag => contains q (lower tag)) (tag_texts item "tags")
  || existsb (fun note => contains q (lower note)) (tag_texts item "notes").

(** The same without the notes. *)
Definition item_mentions_outside_notes (q : string) (item : record) : bool :=
  contains q (item_text item "name")
  || contains q (item_text item "type")
  || contains q (item_text item "description")
  || existsb (fun tag => contains q (lower tag)) (tag_texts item "tags").

End SearchSpec.

(** ** Texts *)

Module TextSpec.
Import Text.

(** Every character of [s] is an ASCII character. *)
Fixpoint is_ascii (s : string) : bool :=
  match s with
  | EmptyString => true
  | String c s' => (code c <? 128)%N && is_ascii s'
  end.

(** The character [sep] does not occur in [s]. *)
Fixpoint free_of (sep : ascii) (s : string) : bool :=
  match s with
  | EmptyString => true
  | String c s' => negb (Ascii.eqb c sep) && free_of sep s'
  end.

(** [s] only holds whitespace. *)
Fixpoint blank (s : string) : bool :=
  match s with
  | EmptyString => true
  | String c s' => is_space c && blank s'
  end.

Definition starts_blank (s : string) : bool :=
  match s with
  | String c _ => is_space c
  | EmptyString => false
  end.

Fixpoint ends_blank (s : string) : bool :=
  match s with
  | EmptyString => false
  | String c EmptyString => is_space c
  | String _ s' => ends_blank s'
  end.

(** [seg] is a piece of [s] cut at the separators: it holds no separator,
    and it reaches from the start of [s] or from behind a separator to the
    end of [s] or to the next separator. *)
Definition piece (sep : ascii) (s seg : string) : Prop :=
  free_of sep seg = true
  /\ exists pre post,
       s = pre ++ seg ++ post
       /\ (pre = EmptyString \/ exists p, pre = p ++ String sep EmptyString)
       /\ (post = EmptyString \/ exists p, post = String sep p).

(** [t] is [seg] without the whitespace at its two ends. *)
Definition trimmed_of (seg t : string) : Prop :=
  starts_blank t = false /\ ends_blank t = false
  /\ exists pre post,
       seg = pre ++ t ++ post /\ blank pre = true /\ blank post = true.

End TextSpec.

(** ** Bulk edits *)

Module BulkSpec.
Import Text Num Py MonsterManager TextSpec.

(** The entries of [changes] that are applied: neither [None] nor [''] *)
Definition nonempty (change : string * value) : bool :=
  negb (is_none change.2) && negb (eqv change.2 (VStr EmptyString)).

Definition ticked (widget : string * bool * string) : bool := widget.1.2.

(** The tags of a record; none when the field is missing. *)
Definition tags_of (m : record) : list string :=
  match m !! "tags" with
  | Some (VList l) => l
  | _ => []
  end.

(** The tags of [l] hold [old] and the new tags, each once. *)
Definition merged (old : list string) (s : string) (m : record) : Prop :=
  NoDup (tags_of m) /\ forall t, t ∈ tags_of m <-> t ∈ old \/ t ∈ new_tags s.

(** A token of a comma-separated text, in the words of the specification:
    the text is split at its commas, each piece is trimmed, and the pieces
    that are then empty are dropped. *)
Definition token (value t : string) : Prop :=
  t <> EmptyString /\ exists seg, piece "," value seg /\ trimmed_of seg t.

(** The text typed for a numeric field of the monster dialog is not a
    number. *)
Definition rejects (field text : string) : bool :=
  Text.truthy (strip text)
  && (if bool_decide (field ∈ ["challenge_rating"])
      then negb (FilterSpec.is_ok (Conv.float_of_string (strip text)))
      else if bool_decide (field ∈ ["armor_class"; "hit_points"])
      then negb (FilterSpec.is_ok (Conv.int_of_string (strip text)))
      else false).

(** The same for the numeric fields of the item dialog. *)
Definition item_rejects (field text : string) : bool :=
  Text.truthy (strip text)
  && (if String.eqb field "price" || String.eqb field "weight"
      then negb (FilterSpec.is_ok (Conv.float_of_string (strip text)))
      else if String.eqb field "stack"
      then negb (FilterSpec.is_ok (Conv.int_of_string (strip text)))
      else false).



End BulkSpec.

(** ** File names *)

Module SaveSpec.
Import Text Num Py MonsterManager TextSpec.

(** A character that a file name can hold: a lower-case letter, a digit, an
    underscore or a hyphen. *)
Definition safe_char (c : ascii) : bool :=
  is_lower c || is_digit c || Conv.is_char 95 c || Conv.is_char 45 c.

Fixpoint all_chars (p : ascii -> bool) (s : string) : bool :=
  match s with
  | EmptyString => true
  | String c s' => p c && all_chars p s'
  end.

(** The characters that stay in a file name: word characters, whitespace
    and hyphens. *)
Definition kept (c : ascii) : bool :=
  is_word c || is_space c || Conv.is_char 45 c.

(** The maximal runs of whitespace and of other characters of a text, in
    order; [true] marks a run of whitespace. *)
Fixpoint runs (l : list ascii) : list (bool * list ascii) :=
  match l with
  | [] => []
  | c :: l' =>
      match runs l' with
      | (b, run) :: rest =>
          if Bool.eqb b (is_space c) then (b, c :: run) :: rest
          else (is_space c, [c]) :: (b, run) :: rest
      | [] => [(is_space c, [c])]
      end
  end.

(** A run of whitespace is written as one hyphen, any other run in lower
    case. *)
Definition render (run : bool * list ascii) : list ascii :=
  if run.1 then ["-"%char] else map lower_char run.2.

(** A text with its runs written out. *)
Definition rendered (l : list ascii) : list ascii := concat (map render (runs l)).

(** The stem of the file name, in the words of the specification: the
    characters that are neither word characters, whitespace nor hyphens
    are removed, each run of whitespace is replaced by one hyphen, and the
    letters are put in lower case. *)
Definition stem (name : string) : string :=
  string_of_list_ascii (rendered (List.filter kept (list_ascii_of_string name))).

End SaveSpec.

(** ** Sample data *)

Module Sample.
Import Num MonsterManager.

Definition zed : record := {[ "name" := VStr "Zed" ]}.
Definition abe : record := {[ "name" := VStr "Abe" ]}.

(** No search text, no criterion, sorted by name. *)
Definition by_name : filter_state :=
  {| search_var := EmptyString; filter_criteria := [];
     sort_column := "name"; sort_reverse := false |}.

(** The state of a manager that was just started. *)
Definition initial : filter_state :=
  {| search_var := EmptyString; filter_criteria := [];
     sort_column := "challenge_rating"; sort_reverse := false |}.

(** A monster whose rating is not a number. *)
Definition unrated : record :=
  {[ "name" := VStr "Ooze"; "challenge_rating" := VStr "abc" ]}.

(** Monsters with missing fields and an empty rating. *)
Definition dragonet : record :=
  {[ "name" := VStr "Dragonet"; "challenge_rating" := VStr EmptyString ]}.
Definition dragon_stub : record := {[ "name" := VStr "Dragon" ]}.
Definition bare : record := ∅.

(** A search, a range criterion, and a numeric sort. *)
Definition busy : filter_state :=
  {| search_var := "drag";
     filter_criteria :=
       [("hit_points", CRange (NInt 0) (NFloat FPosInf)); ("size", CEmpty)];
     sort_column := "challenge_rating"; sort_reverse := true |}.

(** A monster rated below zero. *)
Definition imp : record :=
  {[ "name" := VStr "Imp"; "challenge_rating" := VInt (-1) ]}.

(** Only the criterion "rating between 0 and infinity"; no sort. *)
Definition rated : filter_state :=
  {| search_var := EmptyString;
     filter_criteria := [("challenge_rating", CRange (NInt 0) (NFloat FPosInf))];
     sort_column := EmptyString; sort_reverse := false |}.

(** The three monsters of the specification's sorting scenario. *)
Definition goblin : record :=
  {[ "name" := VStr "Goblin"; "challenge_rating" := VFloat (FFin (1 # 4)) ]}.
Definition dragon : record :=
  {[ "name" := VStr "Dragon"; "challenge_rating" := VInt 24 ]}.
Definition rat : record :=
  {[ "name" := VStr "Rat"; "challenge_rating" := VInt 0 ]}.

Definition by_rating_desc : filter_state :=
  {| search_var := EmptyString; filter_criteria := [];
     sort_column := "challenge_rating"; sort_reverse := true |}.

(** An item whose notes mention what its other fields do not. *)
Definition sword : record :=
  {[ "name" := VStr "Sword"; "type" := VStr "weapon";
     "tags" := VList ["melee"]; "notes" := VList ["Very Shiny"] ]}.

(** A search for "drag", typed with blanks and capitals. *)
Definition searching : filter_state :=
  {| search_var := "  DRAG "; filter_criteria := [];
     sort_column := EmptyString; sort_reverse := false |}.

(** One monster, loaded and selected. *)
Definition ogre : record :=
  {[ "id" := VInt 7; "name" := VStr "Ogre"; "size" := VStr "Large";
     "type" := VStr "giant"; "filename" := VStr "ogre.json" ]}.

Definition one_ogre : app :=
  {| heap := {[ 1%positive := ogre ]}; monsters_data := [1%positive];
     selected_monsters := [1%positive]; files := ∅; dialogs := [] |}.

(** A monster with the tags of the specification's example. *)
Definition wyvern : record :=
  {[ "id" := VInt 3; "name" := VStr "Wyvern"; "tags" := VList ["fire"; "flying"] ]}.

Definition one_wyvern : app :=
  {| heap := {[ 1%positive := wyvern ]}; monsters_data := [1%positive];
     selected_monsters := [1%positive]; files := ∅; dialogs := [] |}.

(** A monster whose list of tags is empty. *)
Definition slime : record :=
  {[ "id" := VInt 2; "name" := VStr "Green Slime"; "tags" := VList [];
     "filename" := VStr "green-slime.json" ]}.

Definition one_slime : app :=
  {| heap := {[ 1%positive := slime ]}; monsters_data := [1%positive];
     selected_monsters := []; files := ∅; dialogs := [] |}.

(** What is typed in the monster dialog: a rating that is not a number and a
    new type. *)
Definition typed : list (string * string) :=
  zip dialog_fields
      ["abc"; "beast"; EmptyString; EmptyString; EmptyString; EmptyString; EmptyString].

(** A monster whose rating reads as not-a-number. *)
Definition ghost : record :=
  {[ "name" := VStr "Ghost"; "challenge_rating" := VStr "nan" ]}.

(** Monsters whose armor class is a numeral, a float and an integer, and
    whose names differ in case. *)
Definition wolf : record :=
  {[ "name" := VStr "wolf"; "challenge_rating" := VInt 1; "armor_class" := VStr "13" ]}.
Definition bear : record :=
  {[ "name" := VStr "Bear"; "challenge_rating" := VInt 2;
     "armor_class" := VFloat (FFin (23 # 2)) ]}.
Definition ape : record :=
  {[ "name" := VStr "Ape"; "challenge_rating" := VFloat (FFin (1 # 2));
     "armor_class" := VInt 12 ]}.

Definition by_armor : filter_state :=
  {| search_var := EmptyString; filter_criteria := [];
     sort_column := "armor_class"; sort_reverse := false |}.




(** Tags typed with blanks, a tab, a line break and empty places. *)
Definition typed_tags : string :=
  " fire ,ice" ++ String (ascii_of_N 9) (",, " ++ String (ascii_of_N 10) ",").

(** A monster whose name has capitals, a hyphen, two blanks in a row,
    brackets, an underscore and a digit. *)
Definition chief : record :=
  {[ "name" := VStr "Half-Orc  (Chief) _7"; "size" := VStr "Medium";
     "filename" := VStr "old.json" ]}.

Definition one_chief : app :=
  {| heap := {[ 1%positive := chief ]}; monsters_data := [1%positive];
     selected_monsters := []; files := ∅; dialogs := [] |}.

End Sample.

(** * Properties *)

(** ** Computations that may raise *)

Lemma bind_inr {A B} (m : result A) (k : A -> result B) (b : B) :
  (m ≫= k) = inr b -> exists a, m = inr a /\ k a = inr b.
Proof. destruct m as [e|a]; simpl; [discriminate | eauto]. Qed.

Ltac inv_bind H :=
  let a := fresh "a" in
  let Ha := fresh "Ha" in
  apply bind_inr in H; destruct H as (a & Ha & H).

Lemma filterR_inr {A} (p : A -> result bool) (l kept : list A) :
  filterR p l = inr kept ->
  kept = List.filter (passes p) l /\ Forall (fun x => exists b, p x = inr b) l.
Proof.
  revert kept. induction l as [|x l IH]; simpl; intros kept H.
  - inversion H. split; [reflexivity | constructor].
  - inv_bind H. inv_bind H. inversion H; subst.
    destruct (IH _ Ha0) as [-> HF]. split; [|constructor; eauto].
    simpl. replace (passes p x) with a; [reflexivity|].
    unfold passes. rewrite Ha. destruct a; reflexivity.
Qed.

Lemma filterR_total {A} (p : A -> result bool) (l : list A) :
  Forall (fun x => exists b, p x = inr b) l -> exists kept, filterR p l = inr kept.
Proof.
  induction 1 as [|x l [b Hb] _ [kept IH]]; simpl; [eexists; reflexivity|].
  rewrite Hb, IH. simpl. eexists; reflexivity.
Qed.

Lemma mapR_total {A B} (f : A -> result B) (l : list A) :
  Forall (fun x => exists b, f x = inr b) l -> exists ys, mapR f l = inr ys.
Proof.
  induction 1 as [|x l [b Hb] _ [ys IH]]; simpl; [eexists; reflexivity|].
  rewrite Hb, IH. simpl. eexists; reflexivity.
Qed.

Lemma mapR_inr {A B} (f : A -> result B) (l : list A) (ys : list B) :
  mapR f l = inr ys -> Forall2 (fun x y => f x = inr y) l ys.
Proof.
  revert ys. induction l as [|x l IH]; simpl; intros ys H.
  - inversion H. constructor.
  - inv_bind H. inv_bind H. inversion H; subst. constructor; auto.
Qed.

(** ** Allocation *)

Lemma alloc_spec {V} (h h' : gmap loc V) (v : V) (l : loc) :
  alloc h v = (h', l) -> h !! l = None /\ h' = <[l := v]> h.
Proof.
  unfold alloc. intros H. inversion H; subst. split; [|reflexivity].
  apply not_elem_of_dom. apply is_fresh.
Qed.

Lemma extends_refl {V} (h : gmap loc V) : extends h h.
Proof. intros l v H. exact H. Qed.

Lemma extends_trans {V} (h1 h2 h3 : gmap loc V) :
  extends h1 h2 -> extends h2 h3 -> extends h1 h3.
Proof. intros H12 H23 l v H. auto. Qed.

Lemma extends_alloc {V} (h h' : gmap loc V) (v : V) (l : loc) :
  alloc h v = (h', l) -> extends h h'.
Proof.
  intros H. apply alloc_spec in H as [Hl ->]. intros l0 v0 H0.
  rewrite lookup_insert_ne; [assumption | congruence].
Qed.

(** ** The stable sort *)

Module SortFacts.
Section Facts.
Import ListSort SortSpec.
Context {K A : Type} (ltb : K -> K -> bool).
Implicit Types (x y : K * A) (l : list (K * A)) (k : K).

Lemma insert_perm x l : insert ltb x l ≡ₚ x :: l.
Proof.
  induction l as [|y l IH]; simpl; [reflexivity|].
  destruct (ltb y.1 x.1); [|reflexivity].
  rewrite IH. apply perm_swap.
Qed.

Lemma isort_perm l : isort ltb l ≡ₚ l.
Proof.
  induction l as [|x l IH]; simpl; [reflexivity|].
  rewrite insert_perm. now constructor.
Qed.

Lemma sort_decorated_perm reverse l : sort_decorated ltb reverse l ≡ₚ l.
Proof.
  unfold sort_decorated. destruct reverse; [|apply isort_perm].
  rewrite <- Permutation_rev, isort_perm. symmetry. apply Permutation_rev.
Qed.

(** The keys on which [<] is a strict weak order. *)
Variable ok : K -> Prop.
Hypothesis ltb_irrefl : forall a, ok a -> ltb a a = false.
Hypothesis ltb_trans :
  forall a b c, ok a -> ok b -> ok c -> ltb a b = true -> ltb b c = true -> ltb a c = true.
Hypothesis ltb_negtrans :
  forall a b c, ok a -> ok b -> ok c -> ltb a b = false -> ltb b c = false -> ltb a c = false.

Lemma ltb_asym a b : ok a -> ok b -> ltb a b = true -> ltb b a = false.
Proof.
  intros Ha Hb Hab. destruct (ltb b a) eqn:Hba; [|reflexivity].
  rewrite <- (ltb_irrefl a Ha). symmetry. eapply ltb_trans; eauto.
Qed.

Lemma insert_Forall (P : K * A -> Prop) x l :
  P x -> Forall P l -> Forall P (insert ltb x l).
Proof. intros Hx Hl. rewrite insert_perm. now constructor. Qed.

Lemma insert_sorted x l :
  ok x.1 -> keys_ok ok l ->
  StronglySorted (before ltb) l -> StronglySorted (before ltb) (insert ltb x l).
Proof.
  intros Hx Hok Hs. induction Hs as [|y l Hs IH Hy]; simpl.
  - repeat constructor.
  - inversion Hok as [|? ? Hoy Hol]; subst.
    destruct (ltb y.1 x.1) eqn:Hyx.
    + constructor; [auto|]. apply insert_Forall; [|assumption].
      unfold before. now apply ltb_asym.
    + constructor; [now constructor|]. constructor; [exact Hyx|].
      rewrite Forall_forall in Hy, Hol |- *. intros z Hz. unfold before in *.
      eapply (ltb_negtrans z.1 y.1 x.1); eauto.
Qed.

Lemma isort_keys_ok l : keys_ok ok l -> keys_ok ok (isort ltb l).
Proof. unfold keys_ok. now rewrite isort_perm. Qed.

Lemma isort_sorted l : keys_ok ok l -> StronglySorted (before ltb) (isort ltb l).
Proof.
  induction 1 as [|x l Hx Hl IH]; simpl; [constructor|].
  apply insert_sorted; auto. now apply isort_keys_ok.
Qed.

Lemma tie_below k a b :
  ok k -> ok a -> ok b -> ltb a b = true -> tie ltb k b = true -> tie ltb k a = false.
Proof.
  unfold tie. intros Hk Ha Hb Hab Ht.
  apply andb_true_iff in Ht as [H1 H2]. apply negb_true_iff in H1, H2.
  destruct (ltb a k) eqn:Hak; [now rewrite andb_false_r|].
  exfalso. pose proof (ltb_negtrans a k b Ha Hk Hb Hak H1). congruence.
Qed.

(** Inserting [x] does not move it past an element with which it ties. *)
Lemma insert_stable k x l :
  ok k -> ok x.1 -> keys_ok ok l ->
  List.filter (fun y => tie ltb k y.1) (insert ltb x l)
  = List.filter (fun y => tie ltb k y.1) (x :: l).
Proof.
  intros Hk Hx Hl. induction Hl as [|y l Hy Hl IH]; [reflexivity|].
  simpl. destruct (ltb y.1 x.1) eqn:Hyx; [|reflexivity].
  simpl. rewrite IH. simpl.
  destruct (tie ltb k x.1) eqn:Htx; [|reflexivity].
  now rewrite (tie_below k y.1 x.1).
Qed.

Lemma isort_stable k l :
  ok k -> keys_ok ok l ->
  List.filter (fun y => tie ltb k y.1) (isort ltb l) = List.filter (fun y => tie ltb k y.1) l.
Proof.
  intros Hk Hl. induction Hl as [|x l Hx Hl IH]; [reflexivity|].
  simpl isort. rewrite insert_stable; auto using isort_keys_ok.
  simpl. now rewrite IH.
Qed.

Lemma filter_rev_bool {B} (f : B -> bool) (l : list B) :
  List.filter f (rev l) = rev (List.filter f l).
Proof.
  induction l as [|b l IH]; [reflexivity|].
  simpl. rewrite List.filter_app, IH. simpl.
  destruct (f b); simpl; [reflexivity | now rewrite app_nil_r].
Qed.

(** Stability, for both directions. *)
Lemma sort_decorated_stable k reverse l :
  ok k -> keys_ok ok l ->
  List.filter (fun y => tie ltb k y.1) (sort_decorated ltb reverse l)
  = List.filter (fun y => tie ltb k y.1) l.
Proof.
  intros Hk Hl. unfold sort_decorated. destruct reverse; [|now apply isort_stable].
  rewrite filter_rev_bool, isort_stable, filter_rev_bool, rev_involutive; auto.
  unfold keys_ok. now rewrite <- Permutation_rev.
Qed.

Lemma sorted_snoc {B} (R : B -> B -> Prop) (l : list B) (b : B) :
  StronglySorted R l -> Forall (fun a => R a b) l -> StronglySorted R (l ++ [b]).
Proof.
  induction 1 as [|c l Hs IH Hc]; simpl; intros Hb.
  - repeat constructor.
  - inversion Hb; subst. constructor; [auto|].
    apply Forall_app. split; [assumption | now repeat constructor].
Qed.

Lemma sorted_rev {B} (R : B -> B -> Prop) (l : list B) :
  StronglySorted R l -> StronglySorted (fun a b => R b a) (rev l).
Proof.
  induction 1 as [|b l Hs IH Hb]; simpl; [constructor|].
  apply sorted_snoc; [assumption|]. now rewrite <- Permutation_rev.
Qed.

(** Ascending order, or descending order with [reverse]. *)
Lemma sort_decorated_sorted (reverse : bool) l :
  keys_ok ok l ->
  StronglySorted (fun x y => if reverse then before ltb y x else before ltb x y)
                 (sort_decorated ltb reverse l).
Proof.
  intros Hl. unfold sort_decorated. destruct reverse; [|now apply isort_sorted].
  apply (sorted_rev (before ltb)). apply isort_sorted.
  unfold keys_ok. now rewrite <- Permutation_rev.
Qed.

(** *** Without ties the order is determined *)

Lemma apart_perm l l' :
  l ≡ₚ l' -> ForallOrdPairs (apart ltb) l -> ForallOrdPairs (apart ltb) l'.
Proof.
  induction 1 as [|x l l' Hp IH|x y l|l1 l2 l3 H12 IH12 H23 IH23]; intros H.
  - constructor.
  - inversion H; subst. constructor; [now rewrite <- Hp | auto].
  - inversion H as [|? ? Hy Hr]; subst. inversion Hr as [|? ? Hx Hl]; subst.
    inversion Hy as [|? ? Hyx Hyl]; subst.
    constructor; [constructor; [|assumption]|constructor; assumption].
    destruct Hyx; [right | left]; assumption.
  - auto.
Qed.

Lemma sorted_strict l :
  ForallOrdPairs (apart ltb) l -> StronglySorted (before ltb) l -> StronglySorted (below ltb) l.
Proof.
  induction 1 as [|x l Hx Hl IH]; intros Hs; [constructor|].
  inversion Hs as [|? ? Hs' Hb]; subst. constructor; [auto|].
  rewrite Forall_forall in Hx, Hb |- *. intros y Hy.
  destruct (Hx y Hy) as [H|H]; [exact H|].
  specialize (Hb y Hy). unfold before in Hb. congruence.
Qed.

Lemma strict_sorted_unique l l' :
  keys_ok ok l -> l ≡ₚ l' ->
  StronglySorted (below ltb) l -> StronglySorted (below ltb) l' -> l = l'.
Proof.
  intros Hok. revert l'. induction l as [|x l IH]; intros l' Hp Hs Hs'.
  - apply Permutation_nil in Hp. now subst.
  - destruct l' as [|y l']; [symmetry in Hp; now apply Permutation_nil_cons in Hp|].
    inversion Hok as [|? ? Hox Hol]; subst.
    inversion Hs as [|? ? Hsl Hx]; subst. inversion Hs' as [|? ? Hsl' Hy]; subst.
    assert (Hoy : ok y.1).
    { assert (Hall : keys_ok ok (y :: l')) by (unfold keys_ok; now rewrite <- Hp).
      now inversion Hall. }
    assert (x = y) as ->.
    { assert (Hxin : x ∈ y :: l') by (rewrite <- Hp; left).
      assert (Hyin : y ∈ x :: l) by (rewrite Hp; left).
      apply elem_of_cons in Hxin as [?|Hxin]; [assumption|].
      apply elem_of_cons in Hyin as [?|Hyin]; [congruence|].
      rewrite Forall_forall in Hx, Hy.
      pose proof (Hx _ Hyin) as H1. pose proof (Hy _ Hxin) as H2.
      unfold below in *. rewrite (ltb_asym _ _ Hox Hoy H1) in H2. discriminate. }
    f_equal. apply IH; auto. now apply Permutation_cons_inv in Hp.
Qed.

(** Sorting with the flag flipped gives the reversed list. *)
Lemma sort_decorated_flip l :
  keys_ok ok l -> ForallOrdPairs (apart ltb) l ->
  sort_decorated ltb true l = rev (sort_decorated ltb false l).
Proof.
  intros Hok Hap. unfold sort_decorated. f_equal.
  assert (Hok' : keys_ok ok (rev l)) by (unfold keys_ok; now rewrite <- Permutation_rev).
  apply strict_sorted_unique.
  - now apply isort_keys_ok.
  - rewrite !isort_perm. symmetry. apply Permutation_rev.
  - apply sorted_strict; [|now apply isort_sorted].
    eapply apart_perm; [|exact Hap]. rewrite isort_perm. apply Permutation_rev.
  - apply sorted_strict; [|now apply isort_sorted].
    eapply apart_perm; [|exact Hap]. now rewrite isort_perm.
Qed.

End Facts.
End SortFacts.

(** ** Order of the sort keys *)

Module KeyOrder.
Import Num MonsterManager SortSpec.

Lemma compare_lt_trans (a b c : string) :
  String.compare a b = Lt -> String.compare b c = Lt -> String.compare a c = Lt.
Proof.
  revert b c. induction a as [|x a IH]; intros [|y b] [|z c]; simpl; try congruence.
  unfold Ascii.compare.
  destruct (N.compare_spec (N_of_ascii x) (N_of_ascii y)) as [Hxy|Hxy|Hxy];
    destruct (N.compare_spec (N_of_ascii y) (N_of_ascii z)) as [Hyz|Hyz|Hyz];
    try congruence; intros H1 H2.
  - rewrite Hxy, Hyz, N.compare_refl. eauto.
  - rewrite Hxy. now apply N.compare_lt_iff in Hyz as ->.
  - rewrite <- Hyz. now apply N.compare_lt_iff in Hxy as ->.
  - assert (Hxz : (N_of_ascii x < N_of_ascii z)%N) by lia.
    now apply N.compare_lt_iff in Hxz as ->.
Qed.

Lemma compare_refl (a : string) : String.compare a a = Eq.
Proof.
  induction a as [|x a IH]; simpl; [reflexivity|].
  unfold Ascii.compare. now rewrite N.compare_refl.
Qed.

Lemma string_ltb_irrefl (a : string) : String.ltb a a = false.
Proof. unfold String.ltb. now rewrite compare_refl. Qed.

Lemma string_ltb_trans (a b c : string) :
  String.ltb a b = true -> String.ltb b c = true -> String.ltb a c = true.
Proof.
  unfold String.ltb. intros H1 H2.
  destruct (String.compare a b) eqn:Hab; try discriminate.
  destruct (String.compare b c) eqn:Hbc; try discriminate.
  now rewrite (compare_lt_trans a b c).
Qed.

Lemma string_ltb_negtrans (a b c : string) :
  String.ltb a b = false -> String.ltb b c = false -> String.ltb a c = false.
Proof.
  unfold String.ltb. intros H1 H2.
  destruct (String.compare a c) eqn:Hac; try reflexivity. exfalso.
  rewrite String.compare_antisym in H1, H2.
  destruct (String.compare b a) eqn:Hba; simpl in H1; try discriminate;
    destruct (String.compare c b) eqn:Hcb; simpl in H2; try discriminate.
  - apply String.compare_eq_iff in Hba, Hcb. subst.
    rewrite compare_refl in Hac. discriminate.
  - apply String.compare_eq_iff in Hba. subst.
    rewrite String.compare_antisym, Hcb in Hac. discriminate.
  - apply String.compare_eq_iff in Hcb. subst.
    rewrite String.compare_antisym, Hba in Hac. discriminate.
  - pose proof (compare_lt_trans c b a Hcb Hba) as Hca.
    rewrite String.compare_antisym, Hca in Hac. discriminate.
Qed.

Ltac q_order :=
  repeat match goal with
  | H : negb _ = true |- _ => apply negb_true_iff in H
  | H : negb _ = false |- _ => apply negb_false_iff in H
  | H : Qle_bool _ _ = true |- _ => apply Qle_bool_iff in H
  | H : Qle_bool _ _ = false |- _ =>
      apply not_true_iff_false in H; rewrite Qle_bool_iff in H;
      apply Qnot_le_lt in H
  | |- negb _ = true => apply negb_true_iff
  | |- negb _ = false => apply negb_false_iff
  | |- Qle_bool _ _ = true => apply Qle_bool_iff
  | |- Qle_bool _ _ = false =>
      apply not_true_iff_false; rewrite Qle_bool_iff; apply Qlt_not_le
  end;
  simpl in *; try lra.

Lemma flt_irrefl (x : pyfloat) : flt x x = false.
Proof. destruct x; simpl; try reflexivity; q_order. Qed.

Lemma flt_trans (x y z : pyfloat) :
  flt x y = true -> flt y z = true -> flt x z = true.
Proof. destruct x, y, z; simpl; try congruence; intros; q_order. Qed.

Lemma flt_negtrans (x y z : pyfloat) :
  x <> FNan -> y <> FNan -> z <> FNan ->
  flt x y = false -> flt y z = false -> flt x z = false.
Proof. destruct x, y, z; simpl; try congruence; intros; q_order. Qed.

Lemma num_irrefl a : ok_num a -> key_ltb a a = false.
Proof. destruct a; simpl; [intros _; apply flt_irrefl | tauto]. Qed.

Lemma num_trans a b c :
  ok_num a -> ok_num b -> ok_num c ->
  key_ltb a b = true -> key_ltb b c = true -> key_ltb a c = true.
Proof. destruct a, b, c; simpl; try tauto. intros _ _ _. apply flt_trans. Qed.

Lemma num_negtrans a b c :
  ok_num a -> ok_num b -> ok_num c ->
  key_ltb a b = false -> key_ltb b c = false -> key_ltb a c = false.
Proof. destruct a, b, c; simpl; try tauto. apply flt_negtrans. Qed.

Lemma str_irrefl a : ok_str a -> key_ltb a a = false.
Proof. destruct a; simpl; [tauto | intros _; apply string_ltb_irrefl]. Qed.

Lemma str_trans a b c :
  ok_str a -> ok_str b -> ok_str c ->
  key_ltb a b = true -> key_ltb b c = true -> key_ltb a c = true.
Proof. destruct a, b, c; simpl; try tauto. intros _ _ _. apply string_ltb_trans. Qed.

Lemma str_negtrans a b c :
  ok_str a -> ok_str b -> ok_str c ->
  key_ltb a b = false -> key_ltb b c = false -> key_ltb a c = false.
Proof. destruct a, b, c; simpl; try tauto. intros _ _ _. apply string_ltb_negtrans. Qed.

End KeyOrder.

(** ** Filtering and sorting: the list objects *)

Module FilterFacts.
Import Text Num Py MonsterManager FilterSpec.

Lemma sort_inr {K A} (ltb : K -> K -> bool) (key : A -> result K)
    (reverse : bool) (l s : list A) :
  ListSort.sort ltb key reverse l = inr s ->
  exists keys, Forall2 (fun x k => key x = inr k) l keys
    /\ s = (ListSort.sort_decorated ltb reverse (zip keys l)).*2.
Proof.
  unfold ListSort.sort. intros H. inv_bind H. inversion H; subst.
  exists a. split; [now apply mapR_inr | reflexivity].
Qed.

Lemma sort_perm {K A} (ltb : K -> K -> bool) (key : A -> result K)
    (reverse : bool) (l s : list A) :
  ListSort.sort ltb key reverse l = inr s -> s ≡ₚ l.
Proof.
  intros H. apply sort_inr in H as (keys & Hk & ->).
  rewrite SortFacts.sort_decorated_perm.
  rewrite snd_zip; [reflexivity|]. apply Forall2_length in Hk. lia.
Qed.

Lemma search_step_spec self (h h1 : list_store) monsters filtered :
  search_step self h monsters = inr (h1, filtered) ->
  if Text.truthy (lower (strip (search_var self)))
  then h !! filtered = None /\
       exists kept, filterR (matches_search (lower (strip (search_var self))))
                            (h !!! monsters) = inr kept
                    /\ h1 = <[filtered := kept]> h
  else h1 = h /\ filtered = monsters.
Proof.
  unfold search_step. destruct (Text.truthy _); intros H.
  - inv_bind H.
    assert (Heq : alloc h a = (h1, filtered)) by (unfold ret in H; congruence).
    apply alloc_spec in Heq as [Hnone ->]. eauto.
  - inversion H. auto.
Qed.

Lemma criteria_step_spec items (h h2 : list_store) filtered filtered2 :
  criteria_step items h filtered = inr (h2, filtered2) ->
  extends h h2 /\
  if existsb (fun fc => criterion_active fc.2) items
  then h !! filtered2 = None
  else h2 = h /\ filtered2 = filtered.
Proof.
  revert h filtered. induction items as [|[field c] items IH]; simpl; intros h filtered H.
  - inversion H; subst. split; [apply extends_refl | auto].
  - assert (Hactive : criterion_active c = true ->
      forall kept, filterR (criterion_test field c) (h !!! filtered) = inr kept ->
      (let '(h', filtered') := alloc h kept in criteria_step items h' filtered')
        = inr (h2, filtered2) ->
      extends h h2 /\ h !! filtered2 = None).
    { intros _ kept _ Hrest. destruct (alloc h kept) as [h' f'] eqn:Hal.
      pose proof (extends_alloc _ _ _ _ Hal) as Hext.
      apply alloc_spec in Hal as [Hnone ->].
      apply IH in Hrest as [Hext2 Hcase].
      split; [eapply extends_trans; eauto|].
      destruct (existsb _ items).
      - apply lookup_insert_None in Hcase. tauto.
      - destruct Hcase as [_ ->]. exact Hnone. }
    destruct c; simpl in *.
    + now apply IH.
    + inv_bind H. eauto.
    + inv_bind H. eauto.
    + inv_bind H. eauto.
Qed.

Lemma sort_step_spec self (h h3 : list_store) filtered r :
  sort_step self h filtered = inr (h3, r) ->
  r = filtered /\
  if sort_recognized self
  then exists sorted,
         ListSort.sort key_ltb (sort_key (sort_column self)) (sort_reverse self)
                       (h !!! filtered) = inr sorted
         /\ h3 = <[filtered := sorted]> h
  else h3 = h.
Proof.
  unfold sort_step, sort_recognized. destruct (_ && _); intros H.
  - inv_bind H. inversion H; subst. eauto.
  - inversion H; subst. auto.
Qed.

(** *** Records on which no step raises *)

Lemma eqv_empty (v : value) :
  eqv v (VStr EmptyString) = true <-> v = VStr EmptyString.
Proof.
  split; [|intros ->; reflexivity].
  destruct v as [| | | |s|]; simpl; try discriminate.
  destruct s; [reflexivity | discriminate].
Qed.

Lemma matches_search_total q m :
  tags_iterable m = true -> exists b, matches_search q m = inr b.
Proof.
  unfold tags_iterable, matches_search, searchable.
  destruct (m !! "tags") as [[| | | | |]|]; try discriminate; intros _; simpl; eauto.
Qed.

Lemma criterion_test_total field c m :
  criterion_ready m (field, c) = true -> exists b, criterion_test field c m = inr b.
Proof.
  unfold criterion_ready, criterion_test, get. simpl.
  destruct c as [|lo hi|s|v]; simpl; eauto.
  unfold num_le_value, value_le_num.
  destruct (m !! field) as [v|]; simpl.
  - intros H. apply bool_decide_eq_true in H as [n ->]. simpl.
    destruct (Num.le lo n); eauto.
  - destruct (Num.le lo (NInt 0)); eauto.
Qed.

Lemma sort_key_total col m :
  sort_ready col m = true -> exists k, sort_key col m = inr k.
Proof.
  unfold sort_ready, sort_key, get.
  destruct (m !! col) as [v|]; simpl.
  2:{ intros _. destruct (String.eqb col _); [eauto|].
      destruct (bool_decide _); eauto. }
  destruct (eqv v (VStr EmptyString)) eqn:He.
  { apply eqv_empty in He as ->. intros _. simpl.
    destruct (String.eqb col _); [eauto|]. destruct (bool_decide _); eauto. }
  simpl. intros H.
  assert (Hv : (if String.eqb col "challenge_rating" then is_ok (float v)
                else if bool_decide (col ∈ ["armor_class"; "hit_points"])
                     then is_ok (int v) else true) = true).
  { destruct v as [| | | |[|]|]; try exact H. discriminate. }
  clear H. destruct (String.eqb col _).
  - destruct (float v); [discriminate | simpl; eauto].
  - destruct (bool_decide _); [|eauto].
    destruct (int v); [discriminate | simpl; eauto].
Qed.

Lemma forallb_filter {A} (f g : A -> bool) (l : list A) :
  forallb f l = true -> forallb f (List.filter g l) = true.
Proof.
  induction l as [|x l IH]; simpl; [auto|].
  intros H. apply andb_true_iff in H as [Hx Hl].
  destruct (g x); simpl; [rewrite Hx|]; auto.
Qed.

Lemma forallb_Forall_impl {A} (f : A -> bool) (P : A -> Prop) (l : list A) :
  (forall x, f x = true -> P x) -> forallb f l = true -> Forall P l.
Proof.
  intros Hf. induction l as [|x l IH]; simpl; [constructor|].
  intros H. apply andb_true_iff in H as [Hx Hl]. constructor; auto.
Qed.

Lemma criteria_step_total self items (h : list_store) filtered :
  (forall fc, fc ∈ items -> fc ∈ filter_criteria self) ->
  forallb (well_formed self) (h !!! filtered) = true ->
  exists h2 f2, criteria_step items h filtered = inr (h2, f2)
    /\ forallb (well_formed self) (h2 !!! f2) = true.
Proof.
  revert h filtered. induction items as [|[field c] items IH]; simpl; intros h filtered Hsub Hwf.
  - eauto.
  - assert (Hsub' : forall fc, fc ∈ items -> fc ∈ filter_criteria self).
    { intros fc Hfc. apply Hsub. now right. }
    assert (Hactive : exists kept,
      filterR (criterion_test field c) (h !!! filtered) = inr kept
      /\ forallb (well_formed self) kept = true).
    { destruct (filterR_total (criterion_test field c) (h !!! filtered)) as [kept Hk].
      - eapply forallb_Forall_impl; [|exact Hwf]. intros m Hm.
        apply criterion_test_total. unfold well_formed in Hm.
        apply andb_true_iff in Hm as [Hm _]. apply andb_true_iff in Hm as [_ Hm].
        rewrite forallb_forall in Hm. apply Hm.
        apply list_elem_of_In. apply Hsub. left.
      - exists kept. split; [exact Hk|].
        apply filterR_inr in Hk as [-> _]. now apply forallb_filter. }
    destruct Hactive as (kept & Hk & Hwfk).
    assert (Hgo : exists h2 f2,
      (let '(h', filtered') := alloc h kept in criteria_step items h' filtered')
        = inr (h2, f2) /\ forallb (well_formed self) (h2 !!! f2) = true).
    { destruct (alloc h kept) as [h' f'] eqn:Hal. apply alloc_spec in Hal as [_ ->].
      apply IH; [assumption|]. now rewrite lookup_total_insert_eq. }
    destruct c; simpl.
    + now apply IH.
    + rewrite Hk. exact Hgo.
    + rewrite Hk. exact Hgo.
    + rewrite Hk. exact Hgo.
Qed.

(** *** The range criterion *)

Lemma passes_range field lo hi m :
  passes (criterion_test field (CRange lo hi)) m = in_range field lo hi m.
Proof.
  unfold passes, criterion_test, in_range, num_le_value, value_le_num.
  destruct (as_num (get m field (VInt 0))) as [v|]; simpl; [|reflexivity].
  destruct (Num.le lo v); simpl; [|reflexivity].
  destruct (Num.le v hi); reflexivity.
Qed.

Lemma criteria_step_single field lo hi (h : list_store) filtered kept :
  filterR (criterion_test field (CRange lo hi)) (h !!! filtered) = inr kept ->
  criteria_step [(field, CRange lo hi)] h filtered = inr (alloc h kept).
Proof. intros Hk. simpl. rewrite Hk. reflexivity. Qed.

Lemma fle_inf (x : pyfloat) : fle x FPosInf = negb (match x with FNan => true | _ => false end).
Proof. destruct x; reflexivity. Qed.

Lemma le_zero_inf (n : num) :
  Num.le (NInt 0) n && Num.le n (NFloat FPosInf) = Num.le (NInt 0) n.
Proof.
  unfold Num.le. simpl ext at 3. rewrite fle_inf.
  destruct (ext n); simpl; try reflexivity; apply andb_true_r.
Qed.

End FilterFacts.


(** ** Claims on [apply_filters_and_sort] *)

Module ApplyClaims.
Import Text Num Py MonsterManager FilterSpec FilterFacts.

(** C1, counterexample: with no search text and no criterion, the list that
    is returned is the caller's list object itself, and the sort has
    reordered it in place. *)
Lemma apply_reorders_input :
  apply_filters_and_sort Sample.by_name
    {[ 1%positive := [Sample.zed; Sample.abe] ]} 1%positive
  = inr ({[ 1%positive := [Sample.abe; Sample.zed] ]}, 1%positive)
  /\ [Sample.abe; Sample.zed] <> [Sample.zed; Sample.abe].
Proof.
  split; [vm_compute; reflexivity|].
  intros H. apply (f_equal (fun l => match l with m :: _ => m !! "name" | [] => None end)) in H.
  vm_compute in H. discriminate.
Qed.

(** C1, amended: the call changes no list object other than the input and
    keeps the elements of the input.  When the search text is not blank or
    some criterion is active, the result is a new list object and the input
    list is left as it was, same elements in the same order.  Otherwise the
    result is the input list object itself; it is sorted in place when the
    sort column is one of the sortable columns, and is left as it was when
    the sort column is not. *)
Theorem apply_input_frame (self : filter_state) (h h' : list_store)
    (monsters r : loc) (ms : list record) :
  h !! monsters = Some ms ->
  apply_filters_and_sort self h monsters = inr (h', r) ->
  (forall l v, l <> monsters -> h !! l = Some v -> h' !! l = Some v)
  /\ (exists ms', h' !! monsters = Some ms' /\ ms' ≡ₚ ms)
  /\ (if filters_active self
      then r <> monsters /\ h !! r = None /\ h' !! monsters = Some ms
      else r = monsters /\ (sort_recognized self = false -> h' !! monsters = Some ms)).
Proof.
  intros Hms H. unfold apply_filters_and_sort in H.
  inv_bind H. destruct a as [h1 f1]. inv_bind H. destruct a as [h2 f2].
  apply search_step_spec in Ha. apply criteria_step_spec in Ha0 as [Hext2 Hcrit].
  apply sort_step_spec in H as [-> Hsort].
  unfold filters_active.
  destruct (Text.truthy (lower (strip (search_var self)))) eqn:Hq; simpl.
  - (* a search: [f1] is new *)
    destruct Ha as [Hnone (kept & _ & ->)].
    assert (Hne1 : f1 <> monsters) by congruence.
    assert (Hms1 : <[f1 := kept]> h !! monsters = Some ms)
      by (now rewrite lookup_insert_ne).
    assert (Hnew : f2 <> monsters /\ h !! f2 = None).
    { destruct (existsb _ (filter_criteria self)).
      - apply lookup_insert_None in Hcrit as [Hn _]. split; congruence.
      - destruct Hcrit as [_ ->]. auto. }
    destruct Hnew as [Hne2 Hnone2].
    assert (Hkeep : forall l v, l <> f2 -> <[f1 := kept]> h !! l = Some v -> h' !! l = Some v).
    { intros l v Hl Hv. apply Hext2 in Hv.
      destruct (sort_recognized self).
      - destruct Hsort as (sorted & _ & ->). now rewrite lookup_insert_ne.
      - now subst. }
    assert (Hin : h' !! monsters = Some ms) by (apply Hkeep; auto).
    repeat split; eauto.
    intros l v Hl Hv. destruct (decide (l = f2)) as [->|Hl2]; [congruence|].
    apply Hkeep; [assumption|]. rewrite lookup_insert_ne; congruence.
  - destruct Ha as [-> ->].
    destruct (existsb _ (filter_criteria self)).
    + (* a criterion: [f2] is new *)
      assert (Hne2 : f2 <> monsters) by congruence.
      assert (Hkeep : forall l v, l <> f2 -> h !! l = Some v -> h' !! l = Some v).
      { intros l v Hl Hv. apply Hext2 in Hv.
        destruct (sort_recognized self).
        - destruct Hsort as (sorted & _ & ->). now rewrite lookup_insert_ne.
        - now subst. }
      assert (Hin : h' !! monsters = Some ms) by (apply Hkeep; auto).
      repeat split; eauto.
      intros l v Hl Hv. destruct (decide (l = f2)) as [->|Hl2]; [congruence|]. auto.
    + (* no filter: the input itself is sorted *)
      destruct Hcrit as [-> ->].
      destruct (sort_recognized self).
      * destruct Hsort as (sorted & Hsorted & ->).
        apply sort_perm in Hsorted.
        rewrite (lookup_total_correct _ _ _ Hms) in Hsorted.
        split; [intros l v Hl Hv; now rewrite lookup_insert_ne|].
        split; [exists sorted; split; [apply lookup_insert_eq | assumption]|].
        split; [reflexivity | discriminate].
      * subst. split; [auto|]. split; [eauto|]. split; auto.
Qed.

(** The two monsters Zed and Abe, sorted by name with no filter. *)
Lemma apply_input_frame_witness :
  exists h',
    apply_filters_and_sort Sample.by_name {[ 1%positive := [Sample.zed; Sample.abe] ]} 1%positive
      = inr (h', 1%positive)
    /\ exists ms', h' !! 1%positive = Some ms' /\ ms' ≡ₚ [Sample.zed; Sample.abe].
Proof.
  eexists. split; [vm_compute; reflexivity|].
  eapply (apply_input_frame Sample.by_name
            {[ 1%positive := [Sample.zed; Sample.abe] ]} _ 1%positive 1%positive).
  - reflexivity.
  - vm_compute. reflexivity.
Defined.

(** C2, counterexample: a rating that is not numeric makes the sort step
    raise [ValueError]. *)
Lemma apply_raises_on_malformed_rating :
  apply_filters_and_sort Sample.initial {[ 1%positive := [Sample.unrated] ]} 1%positive
  = inl ValueError.
Proof. vm_compute. reflexivity. Qed.

(** C2, amended: the call does not raise when, in every record, each field
    it reads is missing or well formed: [tags] (read by a search) is a list
    or a string, the field of a range criterion holds a number, and a
    numeric sort column holds the empty string or a value that [float] or
    [int] accepts.  A missing field never makes it raise; a malformed value
    is not replaced by a default. *)
Theorem apply_total_on_well_formed (self : filter_state) (h : list_store)
    (monsters : loc) (ms : list record) :
  h !! monsters = Some ms ->
  forallb (well_formed self) ms = true ->
  exists h' r, apply_filters_and_sort self h monsters = inr (h', r).
Proof.
  intros Hms Hwf. unfold apply_filters_and_sort.
  assert (Hstep1 : exists h1 f1, search_step self h monsters = inr (h1, f1)
            /\ forallb (well_formed self) (h1 !!! f1) = true).
  { unfold search_step. rewrite (lookup_total_correct _ _ _ Hms).
    destruct (Text.truthy (lower (strip (search_var self)))) eqn:Hq.
    - destruct (filterR_total (matches_search (lower (strip (search_var self)))) ms)
        as [kept Hk].
      + eapply forallb_Forall_impl; [|exact Hwf]. intros m Hm.
        apply matches_search_total. unfold well_formed in Hm. rewrite Hq in Hm.
        apply andb_true_iff in Hm as [Hm _]. apply andb_true_iff in Hm as [Hm _].
        exact Hm.
      + rewrite Hk. simpl. destruct (alloc h kept) as [h1 f1] eqn:Hal.
        exists h1, f1. split; [reflexivity|].
        apply alloc_spec in Hal as [_ ->]. rewrite lookup_total_insert_eq.
        apply filterR_inr in Hk as [-> _]. now apply forallb_filter.
    - exists h, monsters. split; [reflexivity|].
      now rewrite (lookup_total_correct _ _ _ Hms). }
  destruct Hstep1 as (h1 & f1 & -> & Hwf1). simpl.
  destruct (criteria_step_total self (filter_criteria self) h1 f1) as (h2 & f2 & -> & Hwf2);
    [auto | exact Hwf1 |]. simpl.
  unfold sort_step. destruct (_ && _); [|eauto].
  unfold ListSort.sort.
  destruct (mapR_total (sort_key (sort_column self)) (h2 !!! f2)) as [keys ->].
  - eapply forallb_Forall_impl; [|exact Hwf2]. intros m Hm.
    apply sort_key_total. unfold well_formed in Hm.
    now apply andb_true_iff in Hm as [_ Hm].
  - simpl. eauto.
Qed.

(** Records with missing fields and an empty rating pass through a search,
    a range criterion and a numeric sort. *)
Lemma apply_total_on_well_formed_witness :
  exists h' r,
    apply_filters_and_sort Sample.busy
      {[ 1%positive := [Sample.bare; Sample.dragonet; Sample.dragon_stub] ]} 1%positive
    = inr (h', r).
Proof.
  apply (apply_total_on_well_formed Sample.busy _ 1%positive
           [Sample.bare; Sample.dragonet; Sample.dragon_stub]).
  - reflexivity.
  - vm_compute. reflexivity.
Defined.

(** C5, counterexample: the range from 0 to infinity removes a record
    whose value is negative. *)
Lemma range_zero_inf_drops_negative :
  apply_filters_and_sort Sample.rated {[ 1%positive := [Sample.imp] ]} 1%positive
  = inr ({[ 1%positive := [Sample.imp]; 2%positive := [] ]}, 2%positive).
Proof. vm_compute. reflexivity. Qed.

(** C5, amended: on records whose field [f] is missing or holds a number, a
    range criterion on [f] keeps exactly the records with [min <= v <= max],
    where [v] is the value at [f], or 0 when [f] is missing.  With [min = 0]
    and [max] infinite it keeps exactly the records whose field is missing
    or holds a number that is at least 0. *)
Theorem range_criterion_keeps (field : string) (lo hi : num) (h : list_store)
    (filtered : loc) (ms : list record) :
  h !! filtered = Some ms ->
  forallb (numeric_or_missing field) ms = true ->
  (exists h' r,
     criteria_step [(field, CRange lo hi)] h filtered = inr (h', r)
     /\ h' !! r = Some (List.filter (in_range field lo hi) ms))
  /\ (forall m,
        in_range field (NInt 0) (NFloat FPosInf) m
        = match m !! field with
          | None => true
          | Some v =>
              match as_num v with
              | Some n => Num.le (NInt 0) n
              | None => false
              end
          end).
Proof.
  intros Hms Hnum. split.
  - destruct (filterR_total (criterion_test field (CRange lo hi)) ms) as [kept Hk].
    { eapply forallb_Forall_impl; [|exact Hnum]. intros m Hm.
      apply criterion_test_total. unfold criterion_ready. simpl.
      unfold numeric_or_missing in Hm. destruct (m !! field); auto. }
    rewrite (criteria_step_single field lo hi h filtered kept)
      by now rewrite (lookup_total_correct _ _ _ Hms).
    destruct (alloc h kept) as [h' r] eqn:Hal.
    exists h', r. split; [reflexivity|].
    apply alloc_spec in Hal as [_ ->]. rewrite lookup_insert_eq.
    apply filterR_inr in Hk as [-> _]. f_equal.
    apply List.filter_ext. intros m. apply passes_range.
  - intros m. unfold in_range, get.
    destruct (m !! field) as [v|]; simpl; [|reflexivity].
    destruct (as_num v) as [n|]; [apply le_zero_inf | reflexivity].
Qed.

(** The range from 0 to infinity on a record without rating and one rated
    -1. *)
Lemma range_criterion_keeps_witness :
  exists h' r,
    criteria_step [("challenge_rating", CRange (NInt 0) (NFloat FPosInf))]
      {[ 1%positive := [Sample.zed; Sample.imp] ]} 1%positive = inr (h', r)
    /\ h' !! r = Some (List.filter (in_range "challenge_rating" (NInt 0) (NFloat FPosInf))
                                   [Sample.zed; Sample.imp]).
Proof.
  apply (range_criterion_keeps "challenge_rating" (NInt 0) (NFloat FPosInf)
           {[ 1%positive := [Sample.zed; Sample.imp] ]} 1%positive
           [Sample.zed; Sample.imp]).
  - reflexivity.
  - vm_compute. reflexivity.
Defined.

End ApplyClaims.

(** ** Claims on the sort step *)

Module SortClaims.
Import Text Num Py MonsterManager SortSpec FilterSpec FilterFacts KeyOrder.

Lemma sort_key_spec col m : sort_key col m = key_spec col m.
Proof.
  unfold sort_key, key_spec, get.
  destruct (String.eqb_spec col "challenge_rating") as [->|Hcr].
  - rewrite bool_decide_eq_true_2 by (rewrite !elem_of_cons; tauto).
    destruct (m !! "challenge_rating") as [v|]; simpl; [|reflexivity].
    destruct v as [|[]|z|x|[|c s]|l]; try reflexivity.
    cbn -[float_of_Z]. unfold float, parsed. simpl.
    destruct (float_of_Z z); reflexivity.
    cbn. destruct (Conv.float_of_string _); reflexivity.
  - destruct (bool_decide (col ∈ ["armor_class"; "hit_points"])) eqn:Hint.
    + apply bool_decide_eq_true in Hint.
      rewrite bool_decide_eq_true_2 by (rewrite !elem_of_cons in *; tauto).
      destruct (m !! col) as [v|]; simpl; [|reflexivity].
      destruct v as [|[]|z|x|[|c s]|l]; try reflexivity.
      * cbn. destruct (Z_of_float x); reflexivity.
      * cbn. destruct (Conv.int_of_string _); reflexivity.
    + apply bool_decide_eq_false in Hint.
      rewrite bool_decide_eq_false_2.
      2:{ rewrite !elem_of_cons in *. rewrite elem_of_nil in *. intuition. }
      destruct (m !! col) as [v|]; simpl; [|reflexivity].
      destruct v as [|[]|z|x|s|l]; reflexivity.
Qed.


Lemma sort_key_kind col m k :
  sort_key col m = inr k ->
  if is_numeric col then exists n, k = KNum n else exists s, k = KStr s.
Proof.
  unfold sort_key, is_numeric.
  destruct (String.eqb col _); simpl.
  - destruct (negb _); intros H; [inv_bind H|]; inversion H; eauto.
  - destruct (bool_decide _); simpl.
    + destruct (negb _); intros H; [inv_bind H|]; inversion H; eauto.
    + intros H. inversion H. eauto.
Qed.

Section Decorated.
Context (col : string).

Lemma zip_decorated (ms : list record) (keys : list sort_key_value) :
  Forall2 (fun m k => sort_key col m = inr k) ms keys ->
  Forall (decorated_ok col) (zip keys ms) /\ (zip keys ms).*1 = keys /\ (zip keys ms).*2 = ms.
Proof.
  induction 1 as [|m k ms keys Hk H IH]; simpl; [repeat constructor|].
  destruct IH as (IH1 & IH2 & IH3).
  split; [constructor; auto|]. split; simpl; f_equal; assumption.
Qed.

Lemma fmap_sorted {B C} (P : B -> Prop) (R : B -> B -> Prop) (R' : C -> C -> Prop)
    (f : B -> C) (l : list B) :
  (forall x y, P x -> P y -> R x y -> R' (f x) (f y)) ->
  Forall P l -> StronglySorted R l -> StronglySorted R' (f <$> l).
Proof.
  intros HR HP Hs. induction Hs as [|x l Hs IH Hx]; simpl; [constructor|].
  inversion HP; subst. constructor; [auto|].
  apply Forall_fmap. rewrite Forall_forall in Hx |- *. intros y Hy. simpl.
  apply HR; auto. rewrite Forall_forall in H2. auto.
Qed.

Lemma fmap_filter_bool {B C} (f : B -> C) (p : B -> bool) (g : C -> bool) (l : list B) :
  Forall (fun x => g (f x) = p x) l ->
  f <$> List.filter p l = List.filter g (f <$> l).
Proof.
  induction 1 as [|x l Hx _ IH]; simpl; [reflexivity|].
  rewrite Hx. destruct (p x); simpl; [f_equal|]; exact IH.
Qed.

Lemma pairs_fst {B C} (R : B -> B -> Prop) (l : list (B * C)) :
  ForallOrdPairs R (l.*1) -> ForallOrdPairs (fun x y => R x.1 y.1) l.
Proof.
  induction l as [|x l IH]; simpl; intros H; [constructor|].
  inversion H; subst. constructor; [|auto].
  rewrite Forall_fmap in H2. exact H2.
Qed.

Lemma fmap_rev {B C} (f : B -> C) (l : list B) : f <$> rev l = rev (f <$> l).
Proof.
  induction l as [|x l IH]; [reflexivity|].
  simpl. rewrite fmap_app, IH. reflexivity.
Qed.

Lemma mapR_Forall2 {B C} (f : B -> result C) (l : list B) (ys : list C) :
  Forall2 (fun x y => f x = inr y) l ys -> mapR f l = inr ys.
Proof.
  induction 1 as [|x y l ys Hx _ IH]; simpl; [reflexivity|].
  rewrite Hx, IH. reflexivity.
Qed.

(** The result of the sort, for keys on which [<] is a strict weak order. *)
Lemma sorted_facts (ok : sort_key_value -> Prop)
    (ms : list record) (keys : list sort_key_value) (reverse : bool) :
  (forall a, ok a -> key_ltb a a = false) ->
  (forall a b c, ok a -> ok b -> ok c ->
     key_ltb a b = true -> key_ltb b c = true -> key_ltb a c = true) ->
  (forall a b c, ok a -> ok b -> ok c ->
     key_ltb a b = false -> key_ltb b c = false -> key_ltb a c = false) ->
  Forall2 (fun m k => sort_key col m = inr k) ms keys ->
  Forall ok keys ->
  let sorted := (ListSort.sort_decorated key_ltb reverse (zip keys ms)).*2 in
  sorted ≡ₚ ms
  /\ StronglySorted (in_order reverse col) sorted
  /\ (forall k, ok k ->
        List.filter (ties col k) sorted = List.filter (ties col k) ms)
  /\ (distinct_keys keys ->
        (ListSort.sort_decorated key_ltb (negb reverse) (zip keys ms)).*2 = rev sorted).
Proof.
  intros Hirr Htr Hneg Hkeys Hok sorted.
  destruct (zip_decorated ms keys Hkeys) as (Hdec & Hfst & Hsnd).
  assert (Hkok : keys_ok ok (zip keys ms)).
  { unfold keys_ok. rewrite <- Hfst in Hok. now rewrite Forall_fmap in Hok. }
  assert (Hdecs : Forall (decorated_ok col) (ListSort.sort_decorated key_ltb reverse (zip keys ms))).
  { now rewrite SortFacts.sort_decorated_perm. }
  assert (Htie : forall k l, Forall (decorated_ok col) l ->
            Forall (fun x => ties col k x.2 = tie key_ltb k x.1) l).
  { intros k l Hl. eapply Forall_impl; [exact Hl|]. intros x Hx.
    unfold ties. unfold decorated_ok in Hx. now rewrite Hx. }
  repeat split.
  - unfold sorted. now rewrite SortFacts.sort_decorated_perm, Hsnd.
  - unfold sorted.
    eapply (fmap_sorted (decorated_ok col)); [|exact Hdecs|].
    2:{ apply (SortFacts.sort_decorated_sorted key_ltb ok Hirr Htr Hneg); exact Hkok. }
    intros x y Hx Hy Hxy ka kb Ha Hb. unfold decorated_ok in Hx, Hy.
    rewrite Hx in Ha. rewrite Hy in Hb. inversion Ha; inversion Hb; subst.
    destruct reverse; exact Hxy.
  - intros k Hk. unfold sorted.
    rewrite <- (fmap_filter_bool snd (fun y => tie key_ltb k y.1)) by auto.
    rewrite (SortFacts.sort_decorated_stable key_ltb ok Hneg) by assumption.
    rewrite (fmap_filter_bool snd _ (ties col k)) by auto. now rewrite Hsnd.
  - intros Hdist. unfold sorted.
    assert (Hap : ForallOrdPairs (apart key_ltb) (zip keys ms)).
    { apply (pairs_fst (fun k k' => key_ltb k k' = true \/ key_ltb k' k = true)).
      now rewrite Hfst. }
    pose proof (SortFacts.sort_decorated_flip key_ltb ok Hirr Htr Hneg _ Hkok Hap) as Hflip.
    destruct reverse; cbn [negb].
    + rewrite Hflip, fmap_rev, rev_involutive. reflexivity.
    + rewrite Hflip, fmap_rev. reflexivity.
Qed.

End Decorated.

(** C6, counterexample: a rating that reads as NaN.  The keys of Ghost,
    wolf and Bear are NaN, 1.0 and 2.0, no two of them equal.  Ascending,
    the list stays as it is: CPython takes it for one run, since neither
    [1.0 < nan] nor [2.0 < 1.0] holds.  Descending, CPython sorts the
    reversed list Bear, wolf, Ghost: it finds the falling run Bear, wolf
    and turns it round, puts Ghost behind Bear because [nan < 2.0] does
    not hold, and reverses the whole, which gives Ghost, Bear, wolf.  That
    list is neither in descending order nor the reverse of the ascending
    one. *)
Lemma nan_rating_breaks_reverse :
  let ms := [Sample.ghost; Sample.wolf; Sample.bear] in
  mapR (sort_key "challenge_rating") ms
    = inr [KNum (NFloat FNan); KNum (NFloat (FFin 1)); KNum (NFloat (FFin 2))]
  /\ ForallOrdPairs (fun k k' => key_eqb k k' = false)
       [KNum (NFloat FNan); KNum (NFloat (FFin 1)); KNum (NFloat (FFin 2))]
  /\ sort_step Sample.initial {[ 1%positive := ms ]} 1%positive
     = inr ({[ 1%positive := [Sample.ghost; Sample.wolf; Sample.bear] ]}, 1%positive)
  /\ sort_step (flip_direction Sample.initial) {[ 1%positive := ms ]} 1%positive
     = inr ({[ 1%positive := [Sample.ghost; Sample.bear; Sample.wolf] ]}, 1%positive)
  /\ rev [Sample.ghost; Sample.wolf; Sample.bear]
     <> [Sample.ghost; Sample.bear; Sample.wolf].
Proof.
  split; [vm_compute; reflexivity|].
  split; [repeat constructor|].
  split; [vm_compute; reflexivity|].
  split; [vm_compute; reflexivity|].
  intros H. apply (f_equal (fun l => l !! 0%nat)) in H. simpl in H.
  inversion H.
Qed.

(** C6, amended: the sort step.  (1) A sort column that is not one of the
    sortable columns leaves the list as it is.  (2) The key of a record is
    [0] for a missing field or an empty string in a numeric column, the
    value parsed to a float ([challenge_rating]) or to an integer
    ([armor_class], [hit_points]) otherwise; in the other columns it is the
    lower-cased text of the value, empty for a missing field.  (3) When the
    keys can be computed and none is NaN, the list is replaced in place by a
    permutation of itself that is in ascending key order, or descending
    order with [sort_reverse]; records whose keys tie keep their relative
    order; and when no two keys tie, sorting in the other direction gives
    exactly the reversed list. *)
Theorem sort_step_behaviour (self : filter_state) (h : list_store)
    (filtered : loc) (ms : list record) :
  h !! filtered = Some ms ->
  (sort_recognized self = false -> sort_step self h filtered = inr (h, filtered))
  /\ (forall m, sort_key (sort_column self) m = key_spec (sort_column self) m)
  /\ (forall keys,
        sort_recognized self = true ->
        Forall2 (fun m k => sort_key (sort_column self) m = inr k) ms keys ->
        Forall not_nan keys ->
        exists sorted,
          sort_step self h filtered = inr (<[filtered := sorted]> h, filtered)
          /\ sorted ≡ₚ ms
          /\ StronglySorted (in_order (sort_reverse self) (sort_column self)) sorted
          /\ (forall m k,
                sort_key (sort_column self) m = inr k -> not_nan k ->
                List.filter (ties (sort_column self) k) sorted
                = List.filter (ties (sort_column self) k) ms)
          /\ (distinct_keys keys ->
                sort_step (flip_direction self) h filtered
                = inr (<[filtered := rev sorted]> h, filtered))).
Proof.
  intros Hms. split; [|split].
  - intros Hrec. unfold sort_step. fold (sort_recognized self). now rewrite Hrec.
  - intros m. apply sort_key_spec.
  - intros keys Hrec Hkeys Hnan.
    set (col := sort_column self) in *.
    exists (ListSort.sort_decorated key_ltb (sort_reverse self) (zip keys ms)).*2.
    assert (Hrun : forall reverse,
      ListSort.sort key_ltb (sort_key col) reverse (h !!! filtered)
      = inr (ListSort.sort_decorated key_ltb reverse (zip keys ms)).*2).
    { intros reverse. unfold ListSort.sort.
      rewrite (lookup_total_correct _ _ _ Hms), (mapR_Forall2 _ _ _ Hkeys). reflexivity. }
    assert (Hstep : forall self', sort_column self' = col ->
      sort_step self' h filtered
      = inr (<[filtered := (ListSort.sort_decorated key_ltb (sort_reverse self')
                              (zip keys ms)).*2]> h, filtered)).
    { intros self' Hcol. unfold sort_step. rewrite Hcol.
      unfold sort_recognized in Hrec. fold col in Hrec. rewrite Hrec, Hrun. reflexivity. }
    assert (Hkind : forall m k, sort_key col m = inr k -> not_nan k ->
              if is_numeric col then ok_num k else ok_str k).
    { intros m k Hk Hn. apply sort_key_kind in Hk.
      destruct (is_numeric col); destruct Hk as [x ->]; simpl; auto. }
    assert (Hall : Forall (fun k => if is_numeric col then ok_num k else ok_str k) keys).
    { clear Hrun Hstep Hms. revert Hnan.
      induction Hkeys as [|m k ms' keys' Hk _ IH]; intros Hnan; [constructor|].
      inversion Hnan; subst. constructor; [eapply Hkind; eauto | auto]. }
    split; [apply Hstep; reflexivity|].
    destruct (is_numeric col) eqn:Hnum.
    + destruct (sorted_facts col ok_num ms keys (sort_reverse self)
                  num_irrefl num_trans num_negtrans Hkeys Hall) as (Hp & Hs & Hst & Hfl).
      repeat split; eauto.
      intros Hd. rewrite (Hstep (flip_direction self) eq_refl). simpl.
      now rewrite (Hfl Hd).
    + destruct (sorted_facts col ok_str ms keys (sort_reverse self)
                  str_irrefl str_trans str_negtrans Hkeys Hall) as (Hp & Hs & Hst & Hfl).
      repeat split; eauto.
      intros Hd. rewrite (Hstep (flip_direction self) eq_refl). simpl.
      now rewrite (Hfl Hd).
Qed.

Ltac apart_keys :=
  repeat match goal with
  | |- distinct_keys _ => unfold distinct_keys
  | |- ForallOrdPairs _ _ => constructor
  | |- List.Forall _ _ => constructor
  | |- _ \/ _ => first [left; vm_compute; reflexivity | right; vm_compute; reflexivity]
  end.

(** The scenario of the specification: Goblin (0.25), Dragon (24) and Rat
    (0), by descending rating, come out as Dragon, Goblin, Rat.  By armor
    class, the numeral 13, the float 11.5 and the integer 12 give the keys
    13, 11 and 12.  By name, capitals do not count, and a name that is a
    number or [None] is compared as its text. *)
Lemma sort_step_behaviour_witness :
  sort_step Sample.by_rating_desc
    {[ 1%positive := [Sample.goblin; Sample.dragon; Sample.rat] ]} 1%positive
  = inr ({[ 1%positive := [Sample.dragon; Sample.goblin; Sample.rat] ]}, 1%positive)
  /\ mapR (sort_key "armor_class") [Sample.wolf; Sample.bear; Sample.ape; Sample.rat]
     = inr [KNum (NInt 13); KNum (NInt 11); KNum (NInt 12); KNum (NInt 0)]
  /\ sort_step Sample.by_armor
       {[ 1%positive := [Sample.wolf; Sample.bear; Sample.ape] ]} 1%positive
     = inr ({[ 1%positive := [Sample.bear; Sample.ape; Sample.wolf] ]}, 1%positive)
  /\ mapR (sort_key "name")
       [Sample.wolf; Sample.bear; {[ "name" := VInt 7 ]}; {[ "name" := VNone ]}; ∅]
     = inr [KStr "wolf"; KStr "bear"; KStr "7"; KStr "none"; KStr EmptyString]
  /\ sort_step Sample.by_name
       {[ 1%positive := [Sample.wolf; Sample.bear; Sample.ape] ]} 1%positive
     = inr ({[ 1%positive := [Sample.ape; Sample.bear; Sample.wolf] ]}, 1%positive)
  /\ sorts Sample.by_rating_desc [Sample.goblin; Sample.dragon; Sample.rat]
  /\ sorts Sample.by_armor [Sample.wolf; Sample.bear; Sample.ape]
  /\ sorts Sample.by_name [Sample.wolf; Sample.bear; Sample.ape].
Proof.
  assert (Hsorts : forall self ms keys,
    sort_recognized self = true ->
    Forall2 (fun m k => sort_key (sort_column self) m = inr k) ms keys ->
    Forall not_nan keys -> distinct_keys keys -> sorts self ms).
  { intros self ms keys Hrec Hkeys Hnan Hd.
    destruct (sort_step_behaviour self {[ 1%positive := ms ]} 1%positive ms)
      as (_ & _ & H); [apply lookup_singleton_eq|].
    destruct (H keys Hrec Hkeys Hnan) as (sorted & Hrun & Hperm & Hsorted & _ & Hflip).
    exists sorted. auto. }
  do 5 (split; [vm_compute; reflexivity|]).
  split; [|split].
  - apply (Hsorts _ _ [KNum (NFloat (FFin (1 # 4))); KNum (NFloat (FFin 24));
                       KNum (NFloat (FFin 0))]).
    + reflexivity.
    + repeat (constructor; [vm_compute; reflexivity|]). constructor.
    + repeat constructor; discriminate.
    + apart_keys.
  - apply (Hsorts _ _ [KNum (NInt 13); KNum (NInt 11); KNum (NInt 12)]).
    + reflexivity.
    + repeat (constructor; [vm_compute; reflexivity|]). constructor.
    + repeat constructor; discriminate.
    + apart_keys.
  - apply (Hsorts _ _ [KStr "wolf"; KStr "bear"; KStr "ape"]).
    + reflexivity.
    + repeat (constructor; [vm_compute; reflexivity|]). constructor.
    + repeat constructor.
    + apart_keys.
Defined.

End SortClaims.

(** ** Claims on the quick search *)

Module SearchClaims.
Import Text Num Py MonsterManager FilterSpec SearchSpec FilterFacts.

(** *** The item editor *)

Lemma starts_with_spec (p s : string) :
  starts_with p s = true <-> exists post, s = p ++ post.
Proof.
  revert s. induction p as [|a p IH]; intros s; simpl.
  - split; [intros _; exists s; reflexivity | reflexivity].
  - destruct s as [|b s].
    + split; [discriminate | intros [post H]; discriminate].
    + destruct (Ascii.eqb_spec a b) as [->|Hne].
      * rewrite IH. split; intros [post H]; exists post; [now rewrite H | now inversion H].
      * split; [discriminate |]. intros [post H].
        change (String a p ++ post) with (String a (p ++ post)) in H. congruence.
Qed.

Lemma contains_spec (needle hay : string) :
  contains needle hay = true <-> is_substring needle hay.
Proof.
  unfold is_substring. induction hay as [|c hay IH].
  - simpl. rewrite orb_false_r, starts_with_spec. split.
    + intros [post H]. exists EmptyString, post. exact H.
    + intros (pre & post & H). destruct pre; [eauto | discriminate].
  - simpl contains. rewrite orb_true_iff, starts_with_spec, IH. split.
    + intros [[post H]|(pre & post & H)].
      * exists EmptyString, post. exact H.
      * exists (String c pre), post. simpl. now rewrite H.
    + intros (pre & post & H). destruct pre as [|c' pre]; simpl in H.
      * left. eauto.
      * right. inversion H. eauto.
Qed.

Lemma existsb_app_bool {A} (f : A -> bool) (l k : list A) :
  existsb f (l ++ k) = existsb f l || existsb f k.
Proof. apply existsb_app. Qed.

Lemma existsb_map_lower (q : string) (l : list string) :
  existsb (contains q) (map lower l) = existsb (fun tag => contains q (lower tag)) l.
Proof. induction l as [|x l IH]; simpl; [reflexivity | now rewrite IH]. Qed.

Lemma matches_search_spec q m b :
  matches_search q m = inr b -> b = monster_mentions q m.
Proof.
  unfold matches_search, searchable, monster_mentions, tag_texts, field_text.
  destruct (m !! "tags") as [[| | | |s|l]|]; simpl; try discriminate;
    intros H; inversion H; subst; clear H;
    rewrite ?existsb_app_bool, ?existsb_map_lower; simpl;
    rewrite ?orb_false_r, ?orb_assoc; reflexivity.
Qed.

Lemma lower_of_inr item field s :
  ItemEditor.lower_of (get item field (VStr EmptyString)) = inr s -> s = item_text item field.
Proof.
  unfold item_text. destruct (get item field _); simpl; try discriminate.
  intros H. now inversion H.
Qed.

Lemma any_lower_inr q item field b :
  (if truthy (get item field VNone)
   then ItemEditor.any_lower q (get item field VNone) else ret false) = inr b ->
  b = existsb (fun x => contains q (lower x)) (tag_texts item field).
Proof.
  unfold tag_texts, get.
  destruct (item !! field) as [[| | | |s|l]|]; simpl.
  - intros H. now inversion H.
  - destruct b0; simpl; [discriminate | intros H; now inversion H].
  - destruct (negb _); simpl; [discriminate | intros H; now inversion H].
  - destruct (ftruthy _); simpl; [discriminate | intros H; now inversion H].
  - destruct s; simpl; intros H; now inversion H.
  - destruct l; simpl; intros H; now inversion H.
  - intros H. now inversion H.
Qed.

Lemma item_matches_search_spec item q b :
  ItemEditor.item_matches_search item q = inr b -> b = item_mentions q item.
Proof.
  unfold ItemEditor.item_matches_search, item_mentions. intros H.
  inv_bind H. apply lower_of_inr in Ha as ->.
  destruct (contains q (item_text item "name")); [now inversion H|].
  inv_bind H. apply lower_of_inr in Ha as ->.
  destruct (contains q (item_text item "type")); [now inversion H|].
  inv_bind H. apply lower_of_inr in Ha as ->.
  destruct (contains q (item_text item "description")); [now inversion H|].
  inv_bind H. apply any_lower_inr in Ha as ->.
  destruct (existsb _ (tag_texts item "tags")); [now inversion H|].
  apply any_lower_inr in H as ->. reflexivity.
Qed.

Lemma filter_true {A} (f : A -> bool) (l : list A) :
  (forall x, In x l -> f x = true) -> List.filter f l = l.
Proof.
  induction l as [|x l IH]; simpl; intros H; [reflexivity|].
  rewrite (H x) by now left. f_equal. auto.
Qed.

(** C7, counterexample: the item editor keeps an item that mentions the query
    only in its notes, which the monster manager does not read. *)
Lemma item_search_reads_notes :
  ItemEditor.filter_items "All" "All" "shiny" [("sword", Sample.sword)]
    = inr [("sword", Sample.sword)]
  /\ item_mentions_outside_notes "shiny" Sample.sword = false
  /\ matches_search "shiny" Sample.sword = inr false.
Proof. repeat split; vm_compute; reflexivity. Qed.

(** C7, amended: the two tools search different fields.  In the monster
    manager the query is the search text stripped of surrounding blanks and
    lower-cased; when it is empty no record is removed, and otherwise the
    step keeps, in their order, exactly the records in which it occurs in
    the lower-cased text of the name, the type or the alignment, or in some
    lower-cased tag.  In the item editor the query is the lower-cased search
    text, not stripped; when it is empty no item is removed, and otherwise
    the items kept are exactly those in which it occurs in the lower-cased
    name, type or description, in some tag or in some note.  "Occurs in"
    means being a substring. *)
Theorem search_keeps (self : filter_state) (h : list_store) (monsters : loc)
    (ms : list record) :
  h !! monsters = Some ms ->
  (forall h1 f1,
     search_step self h monsters = inr (h1, f1) ->
     if Text.truthy (lower (strip (search_var self)))
     then h1 !! f1
          = Some (List.filter (monster_mentions (lower (strip (search_var self)))) ms)
     else h1 = h /\ f1 = monsters)
  /\ (forall search_text its kept,
        ItemEditor.filter_items "All" "All" search_text its = inr kept ->
        kept = if Text.truthy (lower search_text)
               then List.filter (fun entry => item_mentions (lower search_text) entry.2) its
               else its)
  /\ (forall needle hay, contains needle hay = true <-> is_substring needle hay).
Proof.
  intros Hms. split; [|split].
  - intros h1 f1 H. apply search_step_spec in H.
    destruct (Text.truthy _); [|exact H].
    destruct H as (_ & kept & Hk & ->). rewrite lookup_insert_eq. f_equal.
    rewrite (lookup_total_correct _ _ _ Hms) in Hk.
    apply filterR_inr in Hk as [-> Hall].
    apply List.filter_ext_in. intros m Hm.
    rewrite List.Forall_forall in Hall. destruct (Hall m Hm) as [b Hb].
    unfold passes. rewrite Hb. apply matches_search_spec in Hb. now destruct b.
  - intros search_text its kept H. unfold ItemEditor.filter_items in H.
    apply filterR_inr in H as [-> Hall]. rewrite List.Forall_forall in Hall.
    destruct (Text.truthy (lower search_text)) eqn:Hq.
    + apply List.filter_ext_in. intros e He. destruct (Hall e He) as [b Hb].
      unfold passes. rewrite Hb. unfold ItemEditor.shown in Hb. simpl in Hb.
      rewrite Hq in Hb. apply item_matches_search_spec in Hb. now destruct b.
    + apply filter_true. intros e He. unfold passes, ItemEditor.shown. simpl.
      now rewrite Hq.
  - apply contains_spec.
Qed.

(** A search for "  DRAG " among Goblin, Dragon and Rat keeps Dragon. *)
Lemma search_keeps_witness :
  exists h1 f1,
    search_step Sample.searching
      {[ 1%positive := [Sample.goblin; Sample.dragon; Sample.rat] ]} 1%positive
      = inr (h1, f1)
    /\ h1 !! f1 = Some [Sample.dragon].
Proof.
  eexists _, _. split; [vm_compute; reflexivity|].
  destruct (search_keeps Sample.searching
              {[ 1%positive := [Sample.goblin; Sample.dragon; Sample.rat] ]} 1%positive
              [Sample.goblin; Sample.dragon; Sample.rat]) as (H & _); [reflexivity|].
  specialize (H _ _ ltac:(vm_compute; reflexivity)).
  exact H.
Defined.

End SearchClaims.

(** ** Texts: [split] and [strip] *)

Module TextFacts.
Import Text TextSpec.

Lemma append_cons (c : ascii) (s t : string) : String c s ++ t = String c (s ++ t).
Proof. reflexivity. Qed.

Lemma append_nil_l (t : string) : EmptyString ++ t = t.
Proof. reflexivity. Qed.

Lemma append_nil_r (s : string) : s ++ EmptyString = s.
Proof.
  induction s as [|c s IH]; [reflexivity|]. now rewrite append_cons, IH.
Qed.

Lemma append_assoc (s t u : string) : (s ++ t) ++ u = s ++ (t ++ u).
Proof.
  induction s as [|c s IH]; [reflexivity|]. now rewrite !append_cons, IH.
Qed.

Lemma split_free (sep : ascii) (s : string) :
  free_of sep s = true -> split sep s = [s].
Proof.
  induction s as [|c s IH]; simpl; [reflexivity|].
  intros H. apply andb_true_iff in H as [Hc Hs].
  apply negb_true_iff in Hc. now rewrite Hc, (IH Hs).
Qed.

Lemma split_app (sep : ascii) (s rest : string) :
  free_of sep s = true ->
  split sep (s ++ String sep rest) = s :: split sep rest.
Proof.
  induction s as [|c s IH]; intros H.
  - rewrite append_nil_l. simpl. now rewrite Ascii.eqb_refl.
  - simpl in H. apply andb_true_iff in H as [Hc Hs].
    apply negb_true_iff in Hc. rewrite append_cons. simpl. rewrite Hc.
    now rewrite (IH Hs).
Qed.

(** The first piece starts the text; every later piece stands behind a
    separator. *)
Lemma split_pieces (sep : ascii) (s : string) :
  exists w ws,
    split sep s = w :: ws
    /\ free_of sep w = true
    /\ (exists post, s = w ++ post /\ (post = EmptyString \/ exists p, post = String sep p))
    /\ forall seg, seg ∈ ws ->
         free_of sep seg = true
         /\ exists p post,
              s = (p ++ String sep EmptyString) ++ seg ++ post
              /\ (post = EmptyString \/ exists q, post = String sep q).
Proof.
  induction s as [|c s (w & ws & Hsplit & Hfree & (post & Hs & Hpost) & Htail)].
  - exists EmptyString, []. split; [reflexivity|]. split; [reflexivity|].
    split; [exists EmptyString; auto|].
    intros seg Hseg. now apply elem_of_nil in Hseg.
  - cbn [split]. rewrite Hsplit. destruct (Ascii.eqb_spec c sep) as [->|Hc].
    + exists EmptyString, (w :: ws). split; [reflexivity|]. split; [reflexivity|].
      split; [exists (String sep s); rewrite append_nil_l; eauto|].
      intros seg Hseg. apply elem_of_cons in Hseg as [->|Hseg].
      * split; [exact Hfree|]. exists EmptyString, post.
        rewrite append_nil_l, append_cons, append_nil_l. now rewrite Hs at 1.
      * destruct (Htail seg Hseg) as (Hf & p & post' & Hs' & Hpost').
        split; [exact Hf|]. exists (String sep p), post'.
        rewrite !append_cons. now rewrite Hs' at 1.
    + exists (String c w), ws. split; [reflexivity|].
      split; [simpl; rewrite Hfree, andb_true_r; now apply negb_true_iff, Ascii.eqb_neq|].
      split; [exists post; rewrite append_cons; now rewrite Hs at 1|].
      intros seg Hseg. destruct (Htail seg Hseg) as (Hf & p & post' & Hs' & Hpost').
      split; [exact Hf|]. exists (String c p), post'.
      rewrite !append_cons. now rewrite Hs' at 1.
Qed.

Lemma split_behind (sep : ascii) (p rest x : string) :
  x ∈ split sep rest -> x ∈ tail (split sep (p ++ String sep rest)).
Proof.
  intros Hx. induction p as [|c p IH].
  - rewrite append_nil_l. cbn [split]. now rewrite Ascii.eqb_refl.
  - rewrite append_cons. cbn [split]. destruct (Ascii.eqb c sep).
    + cbn [tail]. destruct (split sep (p ++ String sep rest)); [exact IH|].
      right. exact IH.
    + destruct (split sep (p ++ String sep rest)); [now apply elem_of_nil in IH | exact IH].
Qed.

Lemma elem_of_tail {A} (x : A) (l : list A) : x ∈ tail l -> x ∈ l.
Proof. destruct l; [tauto | now right]. Qed.

(** The pieces of a text are the elements of its split. *)
Lemma split_piece (sep : ascii) (s seg : string) :
  seg ∈ split sep s <-> piece sep s seg.
Proof.
  split.
  - intros Hseg.
    destruct (split_pieces sep s) as (w & ws & Hsplit & Hfree & (post & Hs & Hpost) & Htail).
    rewrite Hsplit in Hseg. apply elem_of_cons in Hseg as [->|Hseg].
    + split; [exact Hfree|]. exists EmptyString, post. rewrite append_nil_l. auto.
    + destruct (Htail seg Hseg) as (Hf & p & post' & Hs' & Hpost').
      split; [exact Hf|]. exists (p ++ String sep EmptyString), post'. eauto.
  - intros (Hfree & pre & post & -> & Hpre & Hpost).
    assert (Hhead : seg ∈ split sep (seg ++ post)).
    { destruct Hpost as [->|[p ->]].
      - rewrite append_nil_r, (split_free _ _ Hfree). left.
      - rewrite (split_app _ _ _ Hfree). left. }
    destruct Hpre as [->|[p ->]]; [now rewrite append_nil_l|].
    rewrite append_assoc, append_cons, append_nil_l.
    now apply elem_of_tail, split_behind.
Qed.

Lemma lstrip_spec (s : string) :
  starts_blank (lstrip s) = false
  /\ exists pre, s = pre ++ lstrip s /\ blank pre = true.
Proof.
  induction s as [|c s [IH1 (pre & IH2 & IH3)]]; [split; [reflexivity | now exists EmptyString]|].
  cbn [lstrip]. destruct (is_space c) eqn:Hc.
  - split; [exact IH1|]. exists (String c pre). rewrite append_cons. simpl.
    rewrite Hc, IH3. now rewrite IH2 at 1.
  - split; [exact Hc|]. now exists EmptyString.
Qed.

Lemma rstrip_spec (s : string) :
  ends_blank (rstrip s) = false
  /\ exists post, s = rstrip s ++ post /\ blank post = true.
Proof.
  induction s as [|c s [IH1 (post & IH2 & IH3)]]; [split; [reflexivity | now exists EmptyString]|].
  cbn [rstrip]. destruct (rstrip s) as [|d r] eqn:Hr.
  - rewrite append_nil_l in IH2. subst post. destruct (is_space c) eqn:Hc.
    + split; [reflexivity|]. exists (String c s). simpl. now rewrite Hc, IH3.
    + split; [exact Hc|]. exists s. split; [reflexivity | exact IH3].
  - split; [exact IH1|]. exists post. rewrite append_cons. now rewrite IH2 at 1.
Qed.

Lemma rstrip_starts (s : string) :
  starts_blank s = false -> starts_blank (rstrip s) = false.
Proof.
  destruct s as [|c s]; [reflexivity|]. cbn [rstrip starts_blank]. intros Hc.
  destruct (rstrip s); [now rewrite Hc | exact Hc].
Qed.

(** [strip] trims. *)
Lemma strip_trimmed_of (s : string) : trimmed_of s (strip s).
Proof.
  unfold strip.
  destruct (lstrip_spec s) as [Hl (pre & Hs & Hpre)].
  destruct (rstrip_spec (lstrip s)) as [Hr (post & Hs' & Hpost)].
  split; [now apply rstrip_starts|]. split; [exact Hr|].
  exists pre, post. rewrite <- Hs'. auto.
Qed.

Lemma lstrip_blank (pre s : string) : blank pre = true -> lstrip (pre ++ s) = lstrip s.
Proof.
  induction pre as [|c pre IH]; [reflexivity|]. cbn [blank]. intros H.
  apply andb_true_iff in H as [Hc Hpre]. rewrite append_cons. cbn [lstrip].
  rewrite Hc. auto.
Qed.

Lemma lstrip_started (s : string) : starts_blank s = false -> lstrip s = s.
Proof. destruct s as [|c s]; [reflexivity|]. simpl. now intros ->. Qed.

Lemma rstrip_blank (post : string) : blank post = true -> rstrip post = EmptyString.
Proof.
  induction post as [|c post IH]; [reflexivity|]. simpl. intros H.
  apply andb_true_iff in H as [Hc Hpost]. now rewrite (IH Hpost), Hc.
Qed.

Lemma rstrip_ended (t post : string) :
  ends_blank t = false -> blank post = true -> rstrip (t ++ post) = t.
Proof.
  intros Ht Hpost. induction t as [|c t IH]; [now apply rstrip_blank|].
  rewrite append_cons. cbn [rstrip]. destruct t as [|d t].
  - rewrite append_nil_l, (rstrip_blank _ Hpost). simpl in Ht. now rewrite Ht.
  - rewrite IH by exact Ht. reflexivity.
Qed.

(** Trimming has one result. *)
Lemma trimmed_of_strip (seg t : string) : trimmed_of seg t -> strip seg = t.
Proof.
  intros (Hs & He & pre & post & -> & Hpre & Hpost). unfold strip.
  rewrite (lstrip_blank _ _ Hpre).
  destruct t as [|c t].
  - rewrite append_nil_l.
    assert (Hl : lstrip post = EmptyString).
    { clear -Hpost. induction post as [|c post IH]; [reflexivity|]. simpl in *.
      apply andb_true_iff in Hpost as [-> Hpost]. auto. }
    now rewrite Hl.
  - rewrite lstrip_started by (rewrite append_cons; exact Hs).
    now apply rstrip_ended.
Qed.

End TextFacts.

(** ** Claims on bulk edits *)

Module BulkFacts.
Import Text Num Py MonsterManager FilterSpec TextSpec BulkSpec TextFacts.

Section WithOrder.
Context (order : set_iteration).


Lemma apply_change_modified m b change m' b' :
  apply_change order (m, b) change = inr (m', b') -> b' = b || nonempty change.
Proof.
  unfold nonempty, apply_change. destruct change as [f v]. simpl.
  destruct (negb (is_none v) && negb (eqv v (VStr EmptyString))).
  - rewrite orb_true_r. destruct (String.eqb f "tags"), v;
      try (intros H; now inversion H).
    destruct (get m "tags" (VList [])); try discriminate. intros H. now inversion H.
  - rewrite orb_false_r. intros H. now inversion H.
Qed.


Lemma fold_modified changes m b m' b' :
  foldlR (apply_change order) (m, b) changes = inr (m', b') ->
  b' = b || existsb nonempty changes.
Proof.
  revert m b. induction changes as [|c changes IH]; simpl; intros m b H.
  - inversion H. now rewrite orb_false_r.
  - inv_bind H. destruct a as [m1 b1].
    apply apply_change_modified in Ha as ->. apply IH in H as ->.
    now rewrite orb_assoc.
Qed.



Lemma bulk_loop_count changes selected st count st' count' :
  bulk_loop order changes selected st count = inr (st', count') ->
  count' = count + (if existsb nonempty changes
                    then Z.of_nat (length selected) else 0).
Proof.
  revert st count. induction selected as [|r selected IH]; simpl; intros st count H.
  - inversion H. destruct (existsb _ _); lia.
  - inv_bind H. destruct a as [m b]. apply fold_modified in Ha. simpl in Ha. subst b.
    destruct (existsb nonempty changes); apply IH in H; lia.
Qed.


(** *** Tags *)

Lemma tags_of_same m m' : m' !! "tags" = m !! "tags" -> tags_of m' = tags_of m.
Proof. unfold tags_of. now intros ->. Qed.

Lemma apply_change_other m b f v m' b' :
  f <> "tags" ->
  apply_change order (m, b) (f, v) = inr (m', b') -> m' !! "tags" = m !! "tags".
Proof.
  intros Hf. unfold apply_change.
  destruct (negb (is_none v) && negb (eqv v (VStr EmptyString))).
  - destruct (String.eqb_spec f "tags") as [->|_]; [contradiction|].
    intros H. inversion H; subst. now rewrite lookup_insert_ne.
  - intros H. now inversion H.
Qed.

Lemma apply_change_tags m b s m' b' :
  s <> EmptyString ->
  apply_change order (m, b) ("tags", VStr s) = inr (m', b') ->
  NoDup (tags_of m')
  /\ forall t, t ∈ tags_of m' <-> t ∈ tags_of m \/ t ∈ new_tags s.
Proof.
  intros Hs. unfold apply_change. simpl.
  destruct s as [|c s]; [contradiction|]. simpl.
  unfold get, tags_of.
  destruct (m !! "tags") as [[| | | |?|existing]|] eqn:Hm; simpl; try discriminate.
  - pose proof (list_of_set_NoDup order (existing ++ new_tags (String c s))) as Hnd.
    pose proof (list_of_set_elem order (existing ++ new_tags (String c s))) as Hel.
    destruct (list_of_set order _) as [|t0 all] eqn:Hall; intros H; inversion H; subst.
    + rewrite Hm.
      assert ((existing ++ new_tags (String c s))%list = []) as Hnil.
      { destruct (existing ++ _)%list as [|x l]; [reflexivity|].
        exfalso. apply (not_elem_of_nil x). apply Hel. left. }
      apply app_eq_nil in Hnil as [-> Hn]. rewrite Hn.
      split; [constructor|]. intros t. rewrite elem_of_nil. tauto.
    + rewrite lookup_insert_eq. split; [exact Hnd|].
      intros t. rewrite <- elem_of_app. apply Hel.
  - pose proof (list_of_set_NoDup order ([] ++ new_tags (String c s))) as Hnd.
    pose proof (list_of_set_elem order ([] ++ new_tags (String c s))) as Hel.
    destruct (list_of_set order _) as [|t0 all] eqn:Hall; intros H; inversion H; subst.
    + rewrite Hm. split; [constructor|].
      intros t. rewrite <- elem_of_app, <- Hel. reflexivity.
    + rewrite lookup_insert_eq. split; [exact Hnd|].
      intros t. rewrite <- elem_of_app. apply Hel.
Qed.

Lemma fold_other changes m b m' b' :
  "tags" ∉ changes.*1 ->
  foldlR (apply_change order) (m, b) changes = inr (m', b') ->
  m' !! "tags" = m !! "tags".
Proof.
  revert m b. induction changes as [|[f v] changes IH]; cbn [foldlR]; intros m b Hn H.
  - now inversion H.
  - inv_bind H. destruct a as [m1 b1].
    rewrite fmap_cons, not_elem_of_cons in Hn. destruct Hn as [Hf Hn].
    apply apply_change_other in Ha; [|simpl in Hf; congruence].
    rewrite <- Ha. eapply IH; eauto.
Qed.

Lemma fold_tags changes m b m' b' s :
  NoDup changes.*1 -> ("tags", VStr s) ∈ changes -> s <> EmptyString ->
  foldlR (apply_change order) (m, b) changes = inr (m', b') ->
  NoDup (tags_of m')
  /\ forall t, t ∈ tags_of m' <-> t ∈ tags_of m \/ t ∈ new_tags s.
Proof.
  revert m b. induction changes as [|[f v] changes IH]; cbn [foldlR]; intros m b Hnd Hin Hs H.
  - now apply elem_of_nil in Hin.
  - rewrite fmap_cons in Hnd. apply NoDup_cons in Hnd as [Hf Hnd].
    inv_bind H. destruct a as [m1 b1].
    apply elem_of_cons in Hin as [Heq|Hin].
    + inversion Heq; subst. apply fold_other in H; [|exact Hf].
      rewrite (tags_of_same _ _ H). eapply apply_change_tags; eauto.
    + assert (Hne : f <> "tags").
      { intros ->. apply Hf. apply list_elem_of_fmap. now exists ("tags", VStr s). }
      apply apply_change_other in Ha; [|exact Hne].
      rewrite <- (tags_of_same _ _ Ha). eapply IH; eauto.
Qed.

Lemma save_monster_tags st r l :
  (heap (save_monster st r) !!! l) !! "tags" = (heap st !!! l) !! "tags".
Proof.
  unfold save_monster.
  assert (Hid : forall st1, assign_id st r = inr st1 ->
            (heap st1 !!! l) !! "tags" = (heap st !!! l) !! "tags").
  { unfold assign_id. intros st1. destruct (has _ "id"); intros H.
    - now inversion H.
    - inv_bind H. inversion H; subst. simpl.
      destruct (decide (r = l)) as [->|Hne].
      + rewrite lookup_total_insert_eq. now rewrite lookup_insert_ne.
      + now rewrite lookup_total_insert_ne. }
  destruct (assign_id st r) as [e|st1]; [reflexivity|].
  specialize (Hid st1 eq_refl).
  destruct (monster_file _) as [e|[path content]]; simpl; exact Hid.
Qed.

Lemma bulk_loop_step changes r st m b s :
  NoDup changes.*1 -> ("tags", VStr s) ∈ changes -> s <> EmptyString ->
  foldlR (apply_change order) (heap st !!! r, false) changes = inr (m, b) ->
  let st1 := set_heap st (<[r := m]> (heap st)) in
  let st2 := if b then save_monster st1 r else st1 in
  forall l,
    if decide (r = l)
    then merged (tags_of (heap st !!! l)) s (heap st2 !!! l)
    else tags_of (heap st2 !!! l) = tags_of (heap st !!! l).
Proof.
  intros Hnd Hin Hs Hfold st1 st2 l.
  assert (H2 : (heap st2 !!! l) !! "tags" = (heap st1 !!! l) !! "tags").
  { unfold st2. destruct b; [apply save_monster_tags | reflexivity]. }
  destruct (decide (r = l)) as [->|Hne].
  - unfold merged. rewrite (tags_of_same _ _ H2). unfold st1. simpl.
    rewrite lookup_total_insert_eq. eapply fold_tags; eauto.
  - rewrite (tags_of_same _ _ H2). unfold st1. simpl.
    now rewrite lookup_total_insert_ne.
Qed.

Lemma merged_again old s m m' :
  merged old s m ->
  (NoDup (tags_of m') /\ forall t, t ∈ tags_of m' <-> t ∈ tags_of m \/ t ∈ new_tags s) ->
  merged old s m'.
Proof.
  intros [_ Hm] [Hnd Hm']. split; [exact Hnd|].
  intros t. rewrite Hm', Hm. tauto.
Qed.

Lemma bulk_loop_merged changes selected st count st' count' s l old :
  NoDup changes.*1 -> ("tags", VStr s) ∈ changes -> s <> EmptyString ->
  merged old s (heap st !!! l) ->
  bulk_loop order changes selected st count = inr (st', count') ->
  merged old s (heap st' !!! l).
Proof.
  intros Hnd Hin Hs. revert st count.
  induction selected as [|r selected IH]; cbn [bulk_loop]; intros st count Hm H.
  - now inversion H; subst.
  - inv_bind H. destruct a as [m b].
    pose proof (bulk_loop_step changes r st m b s Hnd Hin Hs Ha l) as Hstep.
    cbv zeta in Hstep.
    assert (Hm2 : merged old s
              (heap (if b then save_monster (set_heap st (<[r := m]> (heap st))) r
                     else set_heap st (<[r := m]> (heap st))) !!! l)).
    { destruct (decide (r = l)).
      - eapply merged_again; eauto.
      - unfold merged in *. now rewrite Hstep. }
    destruct b; eapply IH; eauto.
Qed.

Lemma bulk_loop_merges changes selected st count st' count' s l :
  NoDup changes.*1 -> ("tags", VStr s) ∈ changes -> s <> EmptyString ->
  l ∈ selected ->
  bulk_loop order changes selected st count = inr (st', count') ->
  merged (tags_of (heap st !!! l)) s (heap st' !!! l).
Proof.
  intros Hnd Hin Hs. revert st count.
  induction selected as [|r selected IH]; cbn [bulk_loop]; intros st count Hl H.
  - now apply elem_of_nil in Hl.
  - inv_bind H. destruct a as [m b].
    pose proof (bulk_loop_step changes r st m b s Hnd Hin Hs Ha l) as Hstep.
    cbv zeta in Hstep.
    destruct (decide (r = l)) as [->|Hne].
    + destruct b; eapply bulk_loop_merged; eauto.
    + apply elem_of_cons in Hl as [?|Hl]; [congruence|].
      rewrite <- Hstep. destruct b; eapply IH; eauto.
Qed.

End WithOrder.

(** *** Numbers typed in the dialogs *)

Lemma int_of_string_exn s e : Conv.int_of_string s = inl e -> e = ValueError.
Proof.
  unfold Conv.int_of_string. destruct (Conv.sign _) as [neg body].
  destruct (Conv.digitpart body) as [[[v n] [|c rest]]|]; intros H; now inversion H.
Qed.

Lemma float_of_string_exn s e : Conv.float_of_string s = inl e -> e = ValueError.
Proof.
  unfold Conv.float_of_string. destruct (Conv.sign _) as [neg body].
  destruct (_ || _); [discriminate|]. destruct (String.eqb _ "nan"); [discriminate|].
  destruct (Conv.number body) as [[[m k] rest]|]; [|intros H; now inversion H].
  destruct (Conv.exponent rest) as [[ex [|c rest']]|]; try (intros H; now inversion H).
  destruct (m =? 0); discriminate.
Qed.

Lemma apply_changes_invalid field_vars changes f t :
  List.find (fun fv => rejects fv.1 fv.2) field_vars = Some (f, t) ->
  apply_changes field_vars changes = inr (Invalid f).
Proof.
  revert changes. induction field_vars as [|[fn var] rest IH]; intros changes; simpl;
    [discriminate|].
  unfold rejects at 1. simpl.
  destruct (Text.truthy (strip var)); simpl; [|apply IH].
  destruct (bool_decide (fn ∈ ["challenge_rating"])).
  - destruct (Conv.float_of_string (strip var)) as [e|x] eqn:Hp; simpl.
    + apply float_of_string_exn in Hp as ->. intros H. now inversion H.
    + apply IH.
  - destruct (bool_decide (fn ∈ ["armor_class"; "hit_points"])).
    + destruct (Conv.int_of_string (strip var)) as [e|z] eqn:Hp; simpl.
      * apply int_of_string_exn in Hp as ->. intros H. now inversion H.
      * apply IH.
    + apply IH.
Qed.

Lemma edit_item_rejected field text (its : ItemEditor.items) keys :
  item_rejects field text = true ->
  foldlR (ItemEditor.edit_item field (strip text)) its keys = inr its.
Proof.
  intros Hr. induction keys as [|key keys IH]; cbn [foldlR]; [reflexivity|].
  assert (Hstep : ItemEditor.edit_item field (strip text) its key = inr its).
  { unfold item_rejects in Hr. apply andb_true_iff in Hr as [Ht Hr].
    unfold ItemEditor.edit_item. rewrite Ht, !andb_true_r.
    destruct (String.eqb_spec field "price") as [->|Hprice]; simpl in *.
    - destruct (Conv.float_of_string (strip text)) as [e|x] eqn:Hp; [|discriminate].
      now apply float_of_string_exn in Hp as ->.
    - destruct (String.eqb_spec field "weight") as [->|Hweight]; simpl in *.
      + destruct (Conv.float_of_string (strip text)) as [e|x] eqn:Hp; [|discriminate].
        now apply float_of_string_exn in Hp as ->.
      + destruct (String.eqb_spec field "stack") as [->|Hstack]; [|discriminate].
        simpl. destruct (Conv.int_of_string (strip text)) as [e|x] eqn:Hp; [|discriminate].
        now apply int_of_string_exn in Hp as ->. }
  rewrite Hstep. simpl. exact IH.
Qed.

Lemma edit_fields_rejected field text before after keys (its : ItemEditor.items) n :
  item_rejects field text = true ->
  ItemEditor.edit_fields (before ++ (field, true, text) :: after) keys its n
  = ItemEditor.edit_fields (before ++ after) keys its (n + 1).
Proof.
  intros Hr. revert its n.
  induction before as [|[[f checked] t] before IH]; intros its n.
  - cbn [Datatypes.app ItemEditor.edit_fields]. now rewrite (edit_item_rejected field text its keys Hr).
  - cbn [Datatypes.app ItemEditor.edit_fields]. destruct checked; [|apply IH].
    destruct (foldlR _ its keys) as [e|its']; [reflexivity|]. apply IH.
Qed.


(** *** The item editor *)


Lemma edit_fields_count widgets keys its n its' n' :
  ItemEditor.edit_fields widgets keys its n = inr (its', n') ->
  n' = n + Z.of_nat (length (List.filter ticked widgets)).
Proof.
  revert its n. induction widgets as [|[[field checked] text] widgets IH]; simpl;
    intros its n H.
  - inversion H. lia.
  - unfold ticked at 1. simpl. destruct checked; simpl.
    + inv_bind H. apply IH in H. lia.
    + apply IH in H. lia.
Qed.

(** *** Tokens *)

(** The new tags are the tokens of the text. *)
Lemma new_tags_token (value t : string) : t ∈ new_tags value <-> token value t.
Proof.
  unfold new_tags, token. rewrite list_elem_of_filter.
  change (map strip (split "," value)) with (strip <$> split "," value).
  rewrite list_elem_of_fmap. split.
  - intros [Ht (seg & -> & Hseg)]. split.
    + intros Hnil. rewrite Hnil in Ht. discriminate.
    + exists seg. split; [now apply split_piece | apply strip_trimmed_of].
  - intros [Ht (seg & Hseg & Htrim)]. apply trimmed_of_strip in Htrim as <-. split.
    + destruct (strip seg); [contradiction | reflexivity].
    + exists seg. split; [reflexivity | now apply split_piece].
Qed.

End BulkFacts.

(** ** The bulk edit of the item editor *)

Module ItemFacts.
Import Text Num Py BulkSpec BulkFacts ItemEditor.















End ItemFacts.

Module BulkClaims.
Import Text Num Py MonsterManager TextSpec BulkSpec BulkFacts ItemFacts.




(** C4, counterexample: writing the value a field already has counts the
    record as modified although none of its fields changed. *)
Lemma bulk_counts_unchanged_record :
  exists st',
    apply_bulk_changes sample_order Sample.one_ogre [("size", VStr "Large")]
      = inr (st', 1)
    /\ heap st' = heap Sample.one_ogre.
Proof. eexists. split; vm_compute; reflexivity. Qed.

(** C4, amended: the count returned by the monster manager is the number of
    selected records to which some entry of [changes] was applied, whether
    or not a value changed: it is the size of the selection when [changes]
    has an entry that is neither [None] nor empty, and 0 otherwise.  The
    count reported by the item editor is the number of ticked fields. *)
Theorem bulk_count (order : set_iteration) (st st' : app)
    (changes : list (string * value)) (count : Z) :
  apply_bulk_changes order st changes = inr (st', count) ->
  count = (if existsb nonempty changes
           then Z.of_nat (length (selected_monsters st)) else 0)
  /\ (forall widgets keys its its' shown,
        ItemEditor.apply_bulk_edit widgets keys its = inr (its', shown) ->
        let fields := Z.of_nat (length (List.filter ticked widgets)) in
        shown = if 0 <? fields
                then Some (ItemEditor.FieldChanges fields (length keys))
                else None).
Proof.
  intros H. split.
  - unfold apply_bulk_changes in H. inv_bind H. destruct a as [st1 c].
    inversion H; subst. apply bulk_loop_count in Ha. lia.
  - intros widgets keys its its' shown Hrun fields.
    unfold ItemEditor.apply_bulk_edit in Hrun. inv_bind Hrun. destruct a as [its1 n].
    apply edit_fields_count in Ha. inversion Hrun; subst.
    now rewrite Z.add_0_l.
Qed.

(** One selected record and one applied entry: the count is 1. *)
Lemma bulk_count_witness :
  exists st',
    apply_bulk_changes sample_order Sample.one_ogre [("size", VStr "Large")]
      = inr (st', 1)
    /\ 1 = (if existsb nonempty [("size", VStr "Large")]
            then Z.of_nat (length (selected_monsters Sample.one_ogre)) else 0).
Proof.
  eexists. split; [vm_compute; reflexivity|].
  eapply (bulk_count sample_order Sample.one_ogre _ [("size", VStr "Large")] 1).
  vm_compute. reflexivity.
Defined.

(** C8: when [changes] gives a non-empty string for [tags], the tags of every
    selected record become, as a set, the union of its former tags with the
    tokens of that string, and no tag occurs twice.  The tokens are the
    pieces of the string between its commas, each without the whitespace at
    its two ends, except the pieces that are then empty. *)
Theorem bulk_tags_union (order : set_iteration) (st st' : app)
    (changes : list (string * value)) (count : Z) (l : loc) (value : string) :
  NoDup changes.*1 ->
  ("tags", VStr value) ∈ changes ->
  value <> EmptyString ->
  l ∈ selected_monsters st ->
  apply_bulk_changes order st changes = inr (st', count) ->
  NoDup (tags_of (heap st' !!! l))
  /\ forall t,
       t ∈ tags_of (heap st' !!! l)
       <-> t ∈ tags_of (heap st !!! l) \/ token value t.
Proof.
  intros Hnd Hin Hv Hl H. unfold apply_bulk_changes in H.
  inv_bind H. destruct a as [st1 c]. inversion H; subst. simpl.
  edestruct (bulk_loop_merges order) as [Hno Hel]; eauto.
  split; [exact Hno|]. intros t. rewrite Hel, new_tags_token. reflexivity.
Qed.

(** The example of the specification: tags fire and flying, merged with
    "fire, ice", give fire, flying and ice, here in the order of
    [sample_order]; the same tokens are read from a text with blanks, a
    tab, a line break and empty places around them. *)
Lemma bulk_tags_union_witness :
  new_tags "fire, ice" = ["fire"; "ice"]
  /\ new_tags Sample.typed_tags = ["fire"; "ice"]
  /\ exists st',
       apply_bulk_changes sample_order Sample.one_wyvern [("tags", VStr Sample.typed_tags)]
         = inr (st', 1)
       /\ tags_of (heap st' !!! 1%positive) = ["flying"; "fire"; "ice"]
       /\ NoDup (tags_of (heap st' !!! 1%positive))
       /\ forall t,
            t ∈ tags_of (heap st' !!! 1%positive)
            <-> t ∈ ["fire"; "flying"] \/ token Sample.typed_tags t.
Proof.
  split; [vm_compute; reflexivity|]. split; [vm_compute; reflexivity|].
  eexists. split; [vm_compute; reflexivity|]. split; [vm_compute; reflexivity|].
  apply (bulk_tags_union sample_order Sample.one_wyvern _
           [("tags", VStr Sample.typed_tags)] 1 1%positive Sample.typed_tags).
  - repeat constructor. intros H. apply elem_of_nil in H. exact H.
  - left.
  - discriminate.
  - left.
  - vm_compute. reflexivity.
Defined.

(** C9, counterexample: with a rating that is not a number, the monster
    dialog shows its error and applies nothing; the type typed next to it
    does not reach the record. *)
Lemma invalid_rating_blocks_batch :
  bulk_edit_dialog sample_order Sample.one_ogre Sample.typed
    = inr (show Sample.one_ogre (InvalidNumber "challenge_rating"))
  /\ (heap (show Sample.one_ogre (InvalidNumber "challenge_rating")) !!! 1%positive)
       !! "type" = Some (VStr "giant").
Proof. split; vm_compute; reflexivity. Qed.

(** C9, amended: in the monster dialog a text that is not a number in
    [challenge_rating], [armor_class] or [hit_points] is reported with an
    error box naming the first such field, and the whole batch is withheld:
    no record and no file changes.  In the item editor a text that is not a
    number in [price], [weight] or [stack] is not reported; that field is
    left as it was on every selected item, it is still counted, and the
    other ticked fields are applied. *)
Theorem invalid_number_handling (order : set_iteration) (st : app)
    (field_vars : list (string * string)) (field text : string) :
  selected_monsters st <> [] ->
  List.find (fun fv => rejects fv.1 fv.2) field_vars = Some (field, text) ->
  bulk_edit_dialog order st field_vars = inr (show st (InvalidNumber field))
  /\ heap (show st (InvalidNumber field)) = heap st
  /\ files (show st (InvalidNumber field)) = files st
  /\ (forall ifield itext before after keys its n,
        item_rejects ifield itext = true ->
        ItemEditor.edit_fields (before ++ (ifield, true, itext) :: after) keys its n
        = ItemEditor.edit_fields (before ++ after) keys its (n + 1)).
Proof.
  intros Hsel Hfind. repeat split.
  - unfold bulk_edit_dialog. destruct (selected_monsters st); [contradiction|].
    now rewrite (apply_changes_invalid field_vars [] field text Hfind).
  - intros ifield itext before after keys its n Hr.
    now apply edit_fields_rejected.
Qed.

(** A rating of "abc" typed for one selected monster. *)
Lemma invalid_number_handling_witness :
  bulk_edit_dialog sample_order Sample.one_ogre Sample.typed
  = inr (show Sample.one_ogre (InvalidNumber "challenge_rating")).
Proof.
  apply (invalid_number_handling sample_order Sample.one_ogre Sample.typed
           "challenge_rating" "abc").
  - discriminate.
  - vm_compute. reflexivity.
Defined.

End BulkClaims.

(** ** Claims on saving *)

Module SaveClaims.
Import Text Num Py MonsterManager TextSpec SaveSpec.

Lemma lower_char_safe (c : ascii) :
  (is_word c || Conv.is_char 45 c) = true -> safe_char (lower_char c) = true.
Proof.
  destruct c as [[] [] [] [] [] [] [] []]; vm_compute; intros H;
    first [reflexivity | discriminate].
Qed.

Lemma sanitize_chars (in_run : bool) (name : string) :
  all_chars safe_char (lower (hyphenate in_run (remove_unsafe name))) = true.
Proof.
  revert in_run. induction name as [|c name IH]; intros in_run; [reflexivity|].
  cbn [remove_unsafe].
  destruct (is_word c || is_space c || Conv.is_char 45 c) eqn:Hkeep; [|apply IH].
  cbn [hyphenate]. destruct (is_space c) eqn:Hsp.
  - destruct in_run; [apply IH|]. cbn [lower all_chars]. now rewrite IH.
  - cbn [lower all_chars]. rewrite IH, andb_true_r.
    apply lower_char_safe.
    destruct (is_word c); [reflexivity | exact Hkeep].
Qed.

Lemma filter_filename_lookup (m : record) (k : string) :
  filter (fun kv : string * value => kv.1 <> "filename") m !! k
  = if decide (k = "filename") then None else m !! k.
Proof.
  destruct (decide (k = "filename")) as [->|Hk].
  - apply map_lookup_filter_None_2. right. intros x _ H. now apply H.
  - destruct (m !! k) as [x|] eqn:Hm.
    + now apply map_lookup_filter_Some_2.
    + apply map_lookup_filter_None_2. now left.
Qed.

Lemma clean_lookup (m : record) (k : string) :
  clean m !! k
  = if decide (k = "filename") then None
    else if decide (k = "tags")
    then match m !! "tags" with
         | Some v => if truthy v then Some v else None
         | None => None
         end
    else m !! k.
Proof.
  unfold clean, has, get.
  set (clean_data := filter (fun kv : string * value => kv.1 <> "filename") m).
  assert (Hcd : forall j, clean_data !! j = if decide (j = "filename") then None else m !! j)
    by (intros j; apply filter_filename_lookup).
  assert (Htags : clean_data !! "tags" = m !! "tags") by (rewrite Hcd; reflexivity).
  rewrite Htags.
  destruct (m !! "tags") as [v|] eqn:Ht.
  - rewrite bool_decide_eq_true_2 by eauto. cbn [default andb]. unfold id.
    destruct (truthy v) eqn:Hv; cbn [negb andb].
    + rewrite Hcd. destruct (decide (k = "filename")); [reflexivity|].
      destruct (decide (k = "tags")) as [->|]; [exact Ht | reflexivity].
    + destruct (decide (k = "tags")) as [->|Hk].
      * rewrite lookup_delete_eq. now destruct (decide _).
      * rewrite lookup_delete_ne by congruence. apply Hcd.
  - rewrite bool_decide_eq_false_2 by (intros [? ?]; discriminate). cbn [andb].
    rewrite Hcd. destruct (decide (k = "filename")); [reflexivity|].
    destruct (decide (k = "tags")) as [->|]; [exact Ht | reflexivity].
Qed.

Lemma assign_id_lookup (st st1 : app) (r : loc) (k : string) :
  assign_id st r = inr st1 -> k <> "id" ->
  (heap st1 !!! r) !! k = (heap st !!! r) !! k.
Proof.
  unfold assign_id. destruct (has _ "id"); intros H Hk.
  - now inversion H.
  - inv_bind H. inversion H; subst. simpl.
    rewrite lookup_total_insert_eq. now rewrite lookup_insert_ne.
Qed.

Lemma assign_id_id (st st1 : app) (r : loc) :
  assign_id st r = inr st1 ->
  is_Some ((heap st1 !!! r) !! "id")
  /\ forall v, (heap st !!! r) !! "id" = Some v -> (heap st1 !!! r) !! "id" = Some v.
Proof.
  unfold assign_id, has. destruct (bool_decide _) eqn:Hhas; intros H.
  - inversion H; subst. apply bool_decide_eq_true in Hhas. auto.
  - apply bool_decide_eq_false in Hhas.
    inv_bind H. inversion H; subst. simpl.
    rewrite lookup_total_insert_eq, lookup_insert_eq. split; [eauto|].
    intros v Hv. exfalso. apply Hhas. eauto.
Qed.

Lemma remove_unsafe_filter (s : string) :
  list_ascii_of_string (remove_unsafe s) = List.filter kept (list_ascii_of_string s).
Proof.
  induction s as [|c s IH]; [reflexivity|]. cbn [remove_unsafe list_ascii_of_string List.filter].
  fold (kept c). destruct (kept c); cbn [list_ascii_of_string]; now rewrite IH.
Qed.

(** The first run starts with the first character. *)
Lemma runs_head (c : ascii) (l : list ascii) :
  exists run rest, runs (c :: l) = (is_space c, c :: run) :: rest.
Proof.
  cbn [runs]. destruct (runs l) as [|[b run] rest]; [eauto|].
  destruct (Bool.eqb b (is_space c)) eqn:Hb; [|eauto].
  apply Bool.eqb_prop in Hb as ->. eauto.
Qed.

Lemma runs_cons (c : ascii) (l : list ascii) :
  runs (c :: l)
  = match runs l with
    | (b, run) :: rest =>
        if Bool.eqb b (is_space c) then (b, c :: run) :: rest
        else (is_space c, [c]) :: (b, run) :: rest
    | [] => [(is_space c, [c])]
    end.
Proof. reflexivity. Qed.

Lemma rendered_space (c : ascii) (l : list ascii) :
  is_space c = true ->
  rendered (c :: l)
  = "-"%char :: match l with
                | d :: _ => if is_space d then tail (rendered l) else rendered l
                | [] => []
                end.
Proof.
  intros Hc. unfold rendered. destruct l as [|d l]; [cbn; now rewrite Hc|].
  destruct (runs_head d l) as (run & rest & Hr).
  rewrite runs_cons, Hr, Hc.
  destruct (is_space d); cbn; reflexivity.
Qed.

Lemma rendered_other (c : ascii) (l : list ascii) :
  is_space c = false -> rendered (c :: l) = lower_char c :: rendered l.
Proof.
  intros Hc. unfold rendered. destruct l as [|d l]; [cbn; now rewrite Hc|].
  destruct (runs_head d l) as (run & rest & Hr).
  rewrite runs_cons, Hr, Hc.
  destruct (is_space d); cbn; reflexivity.
Qed.

(** [hyphenate] followed by [lower] writes the runs; inside a run of
    whitespace the hyphen has been written already. *)
Lemma hyphenate_rendered (in_run : bool) (s : string) :
  list_ascii_of_string (lower (hyphenate in_run s))
  = match list_ascii_of_string s with
    | c :: _ =>
        if in_run && is_space c then tail (rendered (list_ascii_of_string s))
        else rendered (list_ascii_of_string s)
    | [] => []
    end.
Proof.
  revert in_run. induction s as [|c s IH]; intros in_run; [reflexivity|].
  cbn [hyphenate list_ascii_of_string]. destruct (is_space c) eqn:Hc.
  - rewrite (rendered_space _ _ Hc). rewrite andb_true_r. cbn [tail].
    destruct in_run.
    + rewrite IH. destruct (list_ascii_of_string s); reflexivity.
    + cbn [lower list_ascii_of_string]. rewrite IH.
      change (lower_char "-") with "-"%char. f_equal.
  - rewrite (rendered_other _ _ Hc). rewrite andb_false_r.
    cbn [lower list_ascii_of_string]. rewrite IH. f_equal.
    destruct (list_ascii_of_string s) as [|d l]; reflexivity.
Qed.

(** The sanitized name is the stem described by the specification. *)
Lemma sanitize_stem (name : string) : sanitize_filename name = stem name.
Proof.
  unfold sanitize_filename, stem.
  rewrite <- (string_of_list_ascii_of_string (lower _)).
  f_equal. rewrite hyphenate_rendered, remove_unsafe_filter.
  now destruct (List.filter kept (list_ascii_of_string name)).
Qed.

(** C10, counterexample: a record whose [tags] is an empty list is written
    without its [tags] field. *)
Lemma save_drops_empty_tags :
  files (save_monster Sample.one_slime 1%positive) !! "www/data/monster/green-slime.json"
    = Some {[ "id" := VInt 2; "name" := VStr "Green Slime" ]}
  /\ Sample.slime !! "tags" = Some (VList []).
Proof. split; vm_compute; reflexivity. Qed.

(** C10, amended: when the record has a string as name and its identifier
    is present or can be assigned, [save_monster] writes one file.  The
    object written never holds [filename]; it holds [tags] only when the
    record's tags are not empty; it holds the record's [id], assigned by the
    call when the record had none; and it holds every other field of the
    record with its value.  For a name of ASCII characters the path is
    [MONSTER_DIR], a slash, the stem and [.json], where the stem is the
    name without the characters that are neither word characters,
    whitespace nor hyphens, with each run of whitespace replaced by one
    hyphen, in lower case; the stem only holds lower-case letters, digits,
    underscores and hyphens. *)
Theorem save_monster_writes (st st1 : app) (r : loc) (name : string) :
  assign_id st r = inr st1 ->
  (heap st !!! r) !! "name" = Some (VStr name) ->
  exists path content,
    save_monster st r = set_files st1 (<[path := content]> (files st1))
    /\ content !! "filename" = None
    /\ content !! "tags"
        = match (heap st !!! r) !! "tags" with
          | Some v => if truthy v then Some v else None
          | None => None
          end
    /\ is_Some (content !! "id")
    /\ (forall v, (heap st !!! r) !! "id" = Some v -> content !! "id" = Some v)
    /\ (forall k, k <> "filename" -> k <> "tags" -> k <> "id" ->
          content !! k = (heap st !!! r) !! k)
    /\ (is_ascii name = true ->
          path = "www/data/monster/" ++ stem name ++ ".json"
          /\ all_chars safe_char (stem name) = true).
Proof.
  intros Hid Hname.
  assert (Hname1 : (heap st1 !!! r) !! "name" = Some (VStr name)).
  { rewrite (assign_id_lookup st st1 r "name" Hid); [exact Hname | discriminate]. }
  exists (get_monster_path name), (clean (heap st1 !!! r)).
  destruct (assign_id_id st st1 r Hid) as [Hsome Hsame].
  split; [|split; [|split; [|split; [|split; [|split]]]]].
  - unfold save_monster. rewrite Hid. unfold monster_file, item. now rewrite Hname1.
  - now rewrite clean_lookup.
  - rewrite clean_lookup. simpl.
    rewrite (assign_id_lookup st st1 r "tags" Hid); [reflexivity | discriminate].
  - now rewrite clean_lookup.
  - intros v Hv. rewrite clean_lookup. simpl. auto.
  - intros k H1 H2 H3. rewrite clean_lookup.
    destruct (decide (k = "filename")); [contradiction|].
    destruct (decide (k = "tags")); [contradiction|].
    now apply assign_id_lookup.
  - intros _. rewrite <- sanitize_stem. split; [reflexivity | apply sanitize_chars].
Qed.

(** Saving a monster without identifier whose name has capitals, blanks
    and punctuation. *)
Lemma save_monster_writes_witness :
  files (save_monster Sample.one_chief 1%positive)
  = {[ "www/data/monster/half-orc-chief-_7.json"
       := {[ "id" := VInt 1; "name" := VStr "Half-Orc  (Chief) _7";
             "size" := VStr "Medium" ]} ]}
  /\ exists st1 path content,
       save_monster Sample.one_chief 1%positive
         = set_files st1 (<[path := content]> (files st1))
       /\ content !! "filename" = None
       /\ path = "www/data/monster/" ++ stem "Half-Orc  (Chief) _7" ++ ".json"
       /\ stem "Half-Orc  (Chief) _7" = "half-orc-chief-_7".
Proof.
  split; [vm_compute; reflexivity|].
  destruct (assign_id Sample.one_chief 1%positive) as [e|st1] eqn:Hid;
    [vm_compute in Hid; discriminate|].
  destruct (save_monster_writes Sample.one_chief st1 1%positive "Half-Orc  (Chief) _7")
    as (path & content & Hsave & Hfile & _ & _ & _ & _ & Hpath).
  - exact Hid.
  - vm_compute. reflexivity.
  - exists st1, path, content.
    destruct (Hpath eq_refl) as [-> _]. repeat split; try assumption.
Defined.

End SaveClaims.

(** ** Scenarios of the specification, and checks of the primitives *)

Module Scenarios.
Import Text Num Conv Py MonsterManager.

(** Sorting Goblin (0.25), Dragon (24) and Rat (0) by descending rating. *)
Example sort_by_rating_descending :
  apply_filters_and_sort Sample.by_rating_desc
    {[ 1%positive := [Sample.goblin; Sample.dragon; Sample.rat] ]} 1%positive
  = inr ({[ 1%positive := [Sample.dragon; Sample.goblin; Sample.rat] ]}, 1%positive).
Proof. vm_compute. reflexivity. Qed.

(** The criterion "type contains dragon" on the types Dragon, Lizard and
    none keeps the first record only. *)
Example contains_dragon :
  let typed t : record := {[ "type" := VStr t ]} in
  exists h',
    apply_filters_and_sort
      {| search_var := EmptyString;
         filter_criteria := [("type", CContains "dragon")];
         sort_column := EmptyString; sort_reverse := false |}
      {[ 1%positive := [typed "Dragon"; typed "Lizard"; ∅] ]} 1%positive
    = inr (h', 2%positive)
    /\ h' !! 2%positive = Some [typed "Dragon"].
Proof. eexists. split; vm_compute; reflexivity. Qed.

(** With no search text, no criterion and no sort column, the list comes
    back as it is. *)
Lemma apply_identity (h : MonsterManager.list_store) (monsters : loc) (reverse : bool) :
  apply_filters_and_sort
    {| search_var := EmptyString; filter_criteria := [];
       sort_column := EmptyString; sort_reverse := reverse |} h monsters
  = inr (h, monsters).
Proof. reflexivity. Qed.

Example sanitize_examples :
  sanitize_filename "Ancient Red Dragon" = "ancient-red-dragon"
  /\ sanitize_filename "Half-Orc  (Chief)" = "half-orc-chief"
  /\ sanitize_filename " Will-o'-Wisp " = "-will-o-wisp-".
Proof. repeat split; vm_compute; reflexivity. Qed.

Example float_examples :
  float_of_string " 0.25 " = inr (FFin (1 # 4))
  /\ float_of_string "1e3" = inr (FFin 1000)
  /\ float_of_string "-inf" = inr FNegInf
  /\ float_of_string "abc" = inl ValueError
  /\ float_of_string "1,5" = inl ValueError
  /\ string_of_float (FFin (1 # 4)) = "0.25"
  /\ string_of_float (FFin 24) = "24.0"
  /\ (x ← float_of_string "0.1"; ret (string_of_float (fadd x 1))) = inr "1.1".
Proof. repeat split; vm_compute; reflexivity. Qed.

Example int_examples :
  int_of_string " 42 " = inr 42
  /\ int_of_string "-7" = inr (-7)
  /\ int_of_string "1_000" = inr 1000
  /\ int_of_string "4.5" = inl ValueError
  /\ int_of_string EmptyString = inl ValueError.
Proof. repeat split; vm_compute; reflexivity. Qed.

(** [int(0.29 * 100)] is 28: the price is converted through binary
    floating point. *)
Example gp_to_cp_rounds_down :
  (gp ← float_of_string "0.29"; ItemEditor.gp_to_cp gp) = inr 28.
Proof. vm_compute. reflexivity. Qed.

Example str_examples :
  str (VList ["fire"; "ice"]) = "['fire', 'ice']"
  /\ str (VInt (-12)) = "-12"
  /\ str (VBool true) = "True"
  /\ str VNone = "None".
Proof. repeat split; vm_compute; reflexivity. Qed.

End Scenarios.
